(** * A JSON-file backed record store: cache, write queue and startup gate

    Shallow embedding of the Express server of this repository (the server
    module and [schema.js]) and the properties of its in-memory cache, its
    per-type write queue and its loader.

    Conventions of the embedding:
    - JSON values are the inductive [json]; numbers are the integers that
      JavaScript holds exactly and prints with all their digits (below
      2^53 in absolute value), which is all the identifiers of the store
      need; fractions, exponents and the infinite values that a JSON text
      can denote are outside the embedding;
    - a JavaScript object is an association list read through its first
      occurrence of a key, kept in the engine's own-property order (array
      indices in ascending order first, then the other keys in insertion
      order); its prototype is [Object.prototype], whose names matter where
      the code reads or assigns a property that the object does not own;
    - the names of the types are not names of [Object.prototype];
    - a file write that succeeds replaces the text of its file when it
      settles; after a write that fails the text of the file is not
      known;
    - the event loop is a step function on [server]: one step is one
      macrotask (a request handler up to its [await], the settling of a
      file write with the continuations it wakes, a [setImmediate]
      callback);
    - the clock, the result of reading and parsing a file (or the error
      of reading it), and the order in which file writes settle belong to
      the environment and are inputs. *)

From Stdlib Require Import ZArith NArith Ascii String List Bool Lia.
From stdpp Require Import base decidable option list strings pretty gmap fin_maps.

Local Open Scope string_scope.
Local Open Scope list_scope.
Local Set Warnings "-register-all,-clear-no-such-hyp".

(** ** JSON values *)

Module Json.

(** The values of [JSON.parse]. A number is an integer that JavaScript
    holds exactly and prints with all its digits. *)
Inductive json : Type :=
| JNull
| JBool (b : bool)
| JNum (n : Z)
| JStr (s : string)
| JArr (l : list json)
| JObj (o : list (string * json)).

(** A JavaScript object with values in [A]: own properties in key order.
    A parsed object has each key once; every operation below keeps that,
    and reads a key through its first occurrence. *)
Abbreviation jsobj A := (list (string * A)).

(** The records of the store. *)
Abbreviation obj := (list (string * json)).

(** [o[k]]; [None] is [undefined]. *)
Fixpoint obj_get {A} (k : string) (o : jsobj A) : option A :=
  match o with
  | [] => None
  | (k', v) :: o' => if decide (k = k') then Some v else obj_get k o'
  end.

(** [Object.keys(o)]. *)
Definition obj_keys {A} (o : jsobj A) : list string := map fst o.

Definition digit_of (c : ascii) : option N :=
  let n := N_of_ascii c in
  if ((48 <=? n) && (n <=? 57))%N then Some (n - 48)%N else None.

Fixpoint parse_digits (s : string) (acc : N) : option N :=
  match s with
  | EmptyString => Some acc
  | String c s' =>
      match digit_of c with
      | Some d => parse_digits s' (10 * acc + d)%N
      | None => None
      end
  end.

(** A property key is an array index when it is the canonical decimal
    spelling of an integer below 2^32 - 1. *)
Definition array_index (k : string) : option N :=
  match k with
  | EmptyString => None
  | _ =>
      match parse_digits k 0 with
      | Some n =>
          if bool_decide (pretty n = k) && (n <? 4294967295)%N
          then Some n else None
      | None => None
      end
  end.

(** Assignment to an existing property keeps its place. *)
Fixpoint obj_replace {A} (k : string) (v : A) (o : jsobj A) : jsobj A :=
  match o with
  | [] => []
  | (k', v') :: o' =>
      if decide (k = k') then (k, v) :: o' else (k', v') :: obj_replace k v o'
  end.

(** A new array-index key goes among the index keys, in ascending order. *)
Fixpoint obj_insert_index {A} (n : N) (k : string) (v : A) (o : jsobj A)
  : jsobj A :=
  match o with
  | [] => [(k, v)]
  | (k', v') :: o' =>
      match array_index k' with
      | Some m =>
          if (m <? n)%N then (k', v') :: obj_insert_index n k v o'
          else (k, v) :: o
      | None => (k, v) :: o
      end
  end.

(** [o[k] = v]. *)
Definition obj_set {A} (k : string) (v : A) (o : jsobj A) : jsobj A :=
  match obj_get k o with
  | Some _ => obj_replace k v o
  | None =>
      match array_index k with
      | Some n => obj_insert_index n k v o
      | None => o ++ [(k, v)]
      end
  end.

(** [delete o[k]]. *)
Definition obj_delete {A} (k : string) (o : jsobj A) : jsobj A :=
  filter (λ kv, kv.1 ≠ k) o.

(** Object spread [{...target, ...source}] onto an object under
    construction: every own key of [source], in order, is read from
    [source] and defined on the target. *)
Definition obj_assign {A} (target source : jsobj A) : jsobj A :=
  fold_left
    (λ acc k, match obj_get k source with
              | Some v => obj_set k v acc
              | None => acc
              end)
    (obj_keys source) target.

(** The own enumerable properties of an array are its indices. *)
Fixpoint arr_entries {A} (i : nat) (l : list A) : jsobj A :=
  match l with
  | [] => []
  | x :: l' => (pretty i, x) :: arr_entries (S i) l'
  end.

(** [!v] is false. *)
Definition truthy (v : option json) : bool :=
  match v with
  | None | Some JNull | Some (JBool false) | Some (JNum 0) => false
  | Some (JStr s) => negb (bool_decide (s = ""))
  | Some _ => true
  end.

(** [a === b] between values that are never the same reference: two
    objects or two arrays are then different. *)
Definition strict_eq (a b : option json) : bool :=
  match a, b with
  | None, None => true
  | Some JNull, Some JNull => true
  | Some (JBool x), Some (JBool y) => bool_decide (x = y)
  | Some (JNum x), Some (JNum y) => bool_decide (x = y)
  | Some (JStr x), Some (JStr y) => bool_decide (x = y)
  | _, _ => false
  end.

Definition nl : string := String "010" "".
Definition dquote : string := String "034" "".
Definition bslash : string := String "092" "".

Definition join (sep : string) (l : list string) : string :=
  match l with
  | [] => ""
  | x :: l' => fold_left (λ acc y, acc +:+ sep +:+ y) l' x
  end.

Definition hex_digit (n : N) : string :=
  match nth_error
          ["0";"1";"2";"3";"4";"5";"6";"7";"8";"9";"a";"b";"c";"d";"e";"f"]
          (N.to_nat n) with
  | Some s => s
  | None => ""
  end.

(** One character of a quoted JSON string. *)
Definition quote_char (c : ascii) : string :=
  let n := N_of_ascii c in
  if (n =? 8)%N then bslash +:+ "b"
  else if (n =? 9)%N then bslash +:+ "t"
  else if (n =? 10)%N then bslash +:+ "n"
  else if (n =? 12)%N then bslash +:+ "f"
  else if (n =? 13)%N then bslash +:+ "r"
  else if (n =? 34)%N then bslash +:+ dquote
  else if (n =? 92)%N then bslash +:+ bslash
  else if (n <? 32)%N then
    bslash +:+ "u00" +:+ hex_digit (n / 16) +:+ hex_digit (n mod 16)
  else String c "".

Fixpoint quote_chars (s : string) : string :=
  match s with
  | EmptyString => ""
  | String c s' => quote_char c +:+ quote_chars s'
  end.

Definition quote (s : string) : string := dquote +:+ quote_chars s +:+ dquote.

(** [JSON.stringify(v, null, 2)] below a current indentation. *)
Fixpoint stringify_at (indent : string) (v : json) : string :=
  match v with
  | JNull => "null"
  | JBool true => "true"
  | JBool false => "false"
  | JNum n => pretty n
  | JStr s => quote s
  | JArr l =>
      match l with
      | [] => "[]"
      | _ =>
          let inner := indent +:+ "  " in
          "[" +:+ nl +:+ inner
          +:+ join ("," +:+ nl +:+ inner) (map (stringify_at inner) l)
          +:+ nl +:+ indent +:+ "]"
      end
  | JObj o =>
      match o with
      | [] => "{}"
      | _ =>
          let inner := indent +:+ "  " in
          "{" +:+ nl +:+ inner
          +:+ join ("," +:+ nl +:+ inner)
               (map (λ kv, quote kv.1 +:+ ": " +:+ stringify_at inner kv.2) o)
          +:+ nl +:+ indent +:+ "}"
      end
  end.

Definition JSON_stringify (v : json) : string := stringify_at "" v.

(** [String(v)], as a template literal renders a value. *)
Fixpoint to_string (v : json) : string :=
  match v with
  | JNull => "null"
  | JBool true => "true"
  | JBool false => "false"
  | JNum n => pretty n
  | JStr s => s
  | JArr l =>
      join "," (map (λ x, match x with JNull => "" | _ => to_string x end) l)
  | JObj _ => "[object Object]"
  end.

(** The name zod gives the type of a received value. *)
Definition type_name (v : json) : string :=
  match v with
  | JNull => "null"
  | JBool _ => "boolean"
  | JNum _ => "number"
  | JStr _ => "string"
  | JArr _ => "array"
  | JObj _ => "object"
  end.

End Json.
Export Json.

(** ** The schema ([schema.js])

    The schemas are zod object schemas (zod 3, whose [required_error]
    option the file uses); the issues below carry zod's default messages.
    The properties of the store depend on which records pass only. *)

Module Schema.

(** One entry of the list a validator returns: the dotted path of the field
    and the reason. *)
Record verror : Type := VError { field : string; message : string }.

(** [{ valid: true }] or [{ valid: false, errors }]. *)
Inductive validation : Type :=
| Valid
| Invalid (errors : list verror).

(** The field schemas [schema.js] uses. *)
Inductive ftype : Type :=
| TNumber        (* z.number() *)
| TString        (* z.string() *)
| TAny           (* z.any() *)
| TStringArray.  (* z.array(z.string()) *)

Record fspec : Type := FSpec {
  f_name : string;
  f_type : ftype;
  f_optional : bool;                  (* .optional() *)
  f_required_error : option string    (* { required_error } *)
}.

Definition expected (what : string) (v : json) : string :=
  "Expected " +:+ what +:+ ", received " +:+ type_name v.

(** Issues of the elements of a [z.array(z.string())], from index [i]. *)
Fixpoint check_strings (name : string) (i : nat) (l : list json)
  : list verror :=
  match l with
  | [] => []
  | JStr _ :: l' => check_strings name (S i) l'
  | v :: l' =>
      VError (name +:+ "." +:+ pretty i) (expected "string" v)
      :: check_strings name (S i) l'
  end.

(** Issues of the value found under a field of the shape; [None] is
    [undefined]. *)
Definition check_value (f : fspec) (value : option json) : list verror :=
  match value, f_type f with
  | _, TAny => []
  | None, _ =>
      if f_optional f then []
      else [VError (f_name f) (default "Required" (f_required_error f))]
  | Some (JNum _), TNumber => []
  | Some v, TNumber => [VError (f_name f) (expected "number" v)]
  | Some (JStr _), TString => []
  | Some v, TString => [VError (f_name f) (expected "string" v)]
  | Some (JArr l), TStringArray => check_strings (f_name f) 0 l
  | Some v, TStringArray => [VError (f_name f) (expected "array" v)]
  end.

(** Issues of one field of the shape, read from the object. *)
Definition check_field (f : fspec) (o : obj) : list verror :=
  check_value f (obj_get (f_name f) o).

(** [.strict()]: the keys of the object that the shape does not have are
    one issue, on the object itself. *)
Definition check_strict (shape : list fspec) (o : obj) : list verror :=
  match filter (λ k, k ∉ map f_name shape) (obj_keys o) with
  | [] => []
  | extra =>
      [VError ""
         ("Unrecognized key(s) in object: "
          +:+ join ", " (map (λ k, "'" +:+ k +:+ "'") extra))]
  end.

(** The issues [z.object(shape).strict()] finds in an object: those of the
    fields, in shape order, then the unrecognized keys. *)
Definition object_issues (shape : list fspec) (o : obj) : list verror :=
  flat_map (λ f, check_field f o) shape ++ check_strict shape o.

(** A validator generated for an object schema, as [validateGame]: parse,
    and map the issues of a failure to [{field, message}]. [issues] gives
    the issues the schema finds in an object. *)
Definition object_validator (issues : obj → list verror) (data : json)
  : validation :=
  match data with
  | JObj o =>
      match issues o with
      | [] => Valid
      | errors => Invalid errors
      end
  | _ => Invalid [VError "" (expected "object" data)]
  end.

Definition GameSchema : list fspec :=
  [ FSpec "id" TNumber true None;
    FSpec "createdAt" TString true None;
    FSpec "updatedAt" TString true None;
    FSpec "title" TString false (Some "Title is required");
    FSpec "slug" TString false None;
    FSpec "category" TString false (Some "Category is required");
    FSpec "releaseYear" TNumber false None;
    FSpec "developer" TString false None;
    FSpec "rating" TString false None;
    FSpec "description" TString false None;
    FSpec "price" TString false None;
    FSpec "systemRequirements" TAny false None;
    FSpec "imagesExtra" TStringArray false None;
    FSpec "tags" TStringArray false None;
    FSpec "links" TAny false None ].

Definition validateGame : json → validation :=
  object_validator (object_issues GameSchema).

(** [validators] and [readonlyProperties], as [schema.js] exports them; a
    validator is kept as the issues function of its object schema. *)
Definition validators : jsobj (obj → list verror) :=
  [("game", object_issues GameSchema)].
Definition readonlyProperties : jsobj (list string) := [("game", [])].

End Schema.
Export Schema.

(** ** The server: handlers, write queue and loader *)

Module Store.

(** [req.body] as [express.json()] hands it over: an object or an array. *)
Inductive body : Type :=
| BObj (o : obj)
| BArr (l : list json).

Definition body_json (b : body) : json :=
  match b with BObj o => JObj o | BArr l => JArr l end.

(** The own properties of the body. *)
Definition body_props (b : body) : obj :=
  match b with BObj o => o | BArr l => arr_entries 0 l end.

(** What [res.json] is given. *)
Inductive payload : Type :=
| PError (error : string)                           (* { error } *)
| PInvalid (error : string) (details : list verror) (* { error, details } *)
| PNotFound (message : string)             (* { success: false, message } *)
| PReadonly (error : string)               (* { success: false, error } *)
| PItem (type : string) (item : option obj) (* { success: true, [type]: item } *)
| PSuccess.                                 (* { success: true } *)

Record response : Type := Response { status : nat; sent : payload }.

(** What a handler or the loader does once [await saveData(type)] returns;
    [rid] names the request being answered. *)
Inductive cont : Type :=
| KPost (rid : nat) (type : string) (newItem : obj)
| KPut (rid : nat) (type : string) (itemIndex : nat)
| KDelete (rid : nat)
| KLoad (type : string).

(** The closure [saveData] pushes on the queue. *)
Record task : Type := Task { task_type : string; task_resolve : cont }.

(** An [fs.writeFile] that was started and has not settled. *)
Record write : Type := Write { write_task : task; write_data : string }.

Inductive phase : Type :=
| Starting (loading : list string)  (* loads still awaiting their saveData *)
| Listening
| Exited (message : string).        (* process.exit(1) after the report *)

Record server : Type := Server {
  cache : gmap string (list obj);
  writeQueues : gmap string (list task);
  inflight : list write;
  immediates : list string;    (* setImmediate(() => processWriteQueue(type)) *)
  files : gmap string string;  (* text the writes left in <type>.json *)
  responses : list (nat * response);
  phase_of : phase
}.

(** [cache[type]] and [writeQueues[type]]. *)
Definition collection (s : server) (type : string) : list obj :=
  default [] (cache s !! type).
Definition queue (s : server) (type : string) : list task :=
  default [] (writeQueues s !! type).

Definition set_cache (type : string) (items : list obj) (s : server) : server :=
  Server (<[type := items]> (cache s)) (writeQueues s) (inflight s)
    (immediates s) (files s) (responses s) (phase_of s).
Definition set_queue (type : string) (q : list task) (s : server) : server :=
  Server (cache s) (<[type := q]> (writeQueues s)) (inflight s)
    (immediates s) (files s) (responses s) (phase_of s).
Definition set_inflight (ws : list write) (s : server) : server :=
  Server (cache s) (writeQueues s) ws (immediates s) (files s)
    (responses s) (phase_of s).
Definition set_immediates (l : list string) (s : server) : server :=
  Server (cache s) (writeQueues s) (inflight s) l (files s)
    (responses s) (phase_of s).
Definition set_file (type data : string) (s : server) : server :=
  Server (cache s) (writeQueues s) (inflight s) (immediates s)
    (<[type := data]> (files s)) (responses s) (phase_of s).
Definition forget_file (type : string) (s : server) : server :=
  Server (cache s) (writeQueues s) (inflight s) (immediates s)
    (delete type (files s)) (responses s) (phase_of s).
Definition respond (rid : nat) (r : response) (s : server) : server :=
  Server (cache s) (writeQueues s) (inflight s) (immediates s) (files s)
    (responses s ++ [(rid, r)]) (phase_of s).
Definition set_phase (p : phase) (s : server) : server :=
  Server (cache s) (writeQueues s) (inflight s) (immediates s) (files s)
    (responses s) p.

(** *** The write queue *)

(** The text a persistence task writes:
    [JSON.stringify(cache[type], null, 2)]. *)
Definition snapshot (s : server) (type : string) : string :=
  JSON_stringify (JArr (JObj <$> collection s type)).

(** [processWriteQueue(type)] up to its [await]: the head task is taken
    off the queue and called, which computes the text and starts the file
    write. *)
Definition processWriteQueue (type : string) (s : server) : server :=
  match queue s type with
  | [] => s
  | task :: rest =>
      let s := set_queue type rest s in
      set_inflight (inflight s ++ [Write task (snapshot s (task_type task))]) s
  end.

(** [saveData(type)] up to the promise it returns; [resolve] is what
    awaits that promise. *)
Definition saveData (type : string) (resolve : cont) (s : server) : server :=
  let s := set_queue type (queue s type ++ [Task type resolve]) s in
  if (length (queue s type) =? 1)%nat then processWriteQueue type s else s.

(** [processWriteQueue(type)] after its [await task()]. *)
Definition processWriteQueue_next (type : string) (s : server) : server :=
  if (0 <? length (queue s type))%nat
  then set_immediates (immediates s ++ [type]) s
  else s.

(** The code after [await saveData(type)]. *)
Definition resume (k : cont) (s : server) : server :=
  match k with
  | KPost rid type newItem =>
      respond rid (Response 201 (PItem type (Some newItem))) s
  | KPut rid type itemIndex =>
      respond rid (Response 200 (PItem type (collection s type !! itemIndex))) s
  | KDelete rid => respond rid (Response 200 PSuccess) s
  | KLoad type =>
      match phase_of s with
      | Starting loading =>
          match filter (λ t, t ≠ type) loading with
          | [] => set_phase Listening s
          | loading' => set_phase (Starting loading') s
          end
      | _ => s
      end
  end.

(** The [i]-th pending file write settles, with success or with an error
    that the task logs: the task resolves its promise, and the drain loop
    looks at the queue. A write that succeeds leaves its text in the file.
    [fs.writeFile] truncates the file when it opens it, so what a write
    that fails leaves behind is not determined: the file then has no known
    text, until a later write succeeds. *)
Definition settle (i : nat) (ok : bool) (s : server) : server :=
  match inflight s !! i with
  | None => s
  | Some w =>
      let type := task_type (write_task w) in
      let s := set_inflight (delete i (inflight s)) s in
      let s := if ok then set_file type (write_data w) s
               else forget_file type s in
      let s := resume (task_resolve (write_task w)) s in
      processWriteQueue_next type s
  end.

(** A [setImmediate] callback runs. *)
Definition immediate (s : server) : server :=
  match immediates s with
  | [] => s
  | type :: rest => processWriteQueue type (set_immediates rest s)
  end.

(** *** The handlers *)

(** A handler either answers at once, or has replaced [cache[type]] and
    called [saveData], to answer after it. *)
Inductive handled : Type :=
| Reply (r : response)
| Saved (items : list obj) (k : cont).

Definition has_slug (slug : option json) (item : obj) : Prop :=
  strict_eq (obj_get "slug" item) slug = true.

#[global] Instance has_slug_dec slug item : Decision (has_slug slug item).
Proof. unfold has_slug. apply _. Defined.

(** [p.id !== itemId] fails: the record has the number [itemId] as id.
    [itemId] is [parseInt(req.params.id)], [None] when that is [NaN]. *)
Definition id_is (itemId : option Z) (p : obj) : Prop :=
  match obj_get "id" p, itemId with
  | Some (JNum n), Some m => n = m
  | _, _ => False
  end.

#[global] Instance id_is_dec itemId p : Decision (id_is itemId p).
Proof.
  unfold id_is. destruct (obj_get "id" p) as [[]|], itemId; apply _.
Defined.

Section Handlers.
(** [validators[type]], as the issues of its object schema, and
    [readonlyProperties[type] || []]. *)
Variable type : string.
Variable issues : obj → list verror.
Variable typeReadonlyProps : list string.

(** POST /<plural> *)
Definition post (rid : nat) (now : string) (b : body) (items : list obj)
  : handled :=
  match object_validator issues (body_json b) with
  | Invalid errors =>
      Reply (Response 400 (PInvalid ("Invalid " +:+ type +:+ " data") errors))
  | Valid =>
      let newItem := obj_delete "id" (body_props b) in
      if negb (truthy (obj_get "slug" newItem)) then
        Reply (Response 400 (PError "Slug obbligatorio"))
      else if bool_decide (Exists (has_slug (obj_get "slug" newItem)) items)
      then Reply (Response 409 (PError "Slug già esistente"))
      else
        let newItem := obj_set "createdAt" (JStr now) newItem in
        let newItem := obj_set "updatedAt" (JStr now) newItem in
        Saved (items ++ [newItem]) (KPost rid type newItem)
  end.

(** [updatedFields]: a copy of the body without the server's fields. *)
Definition updatedFields (b : body) : obj :=
  obj_delete "updatedAt"
    (obj_delete "createdAt"
       (obj_delete "id" (obj_delete "slug" (obj_assign [] (body_props b))))).

Definition readonlyAttemptsToUpdate (b : body) : list string :=
  filter (λ key, key ∈ typeReadonlyProps) (obj_keys (updatedFields b)).

(** [fieldsToValidate]: the keys of [updatedFields], assigned one by one
    to a new object. Assigning to the key [__proto__] calls the setter that
    the object inherits under this name from [Object.prototype], and
    defines no property: this key of the body is not validated. *)
Definition fieldsToValidate (b : body) : obj :=
  fold_left (λ fields key,
               if decide (key = "__proto__") then fields
               else match obj_get key (updatedFields b) with
                    | Some value => obj_set key value fields
                    | None => fields
                    end)
    (obj_keys (updatedFields b)) [].

(** [{ ...oldItem, ...fieldsToValidate }], the object the validator sees. *)
Definition merged (oldItem : obj) (b : body) : obj :=
  obj_assign (obj_assign [] oldItem) (fieldsToValidate b).

(** [{ ...cache[type][itemIndex], ...updatedFields, updatedAt: now }] *)
Definition updated (oldItem : obj) (b : body) (now : string) : obj :=
  obj_set "updatedAt" (JStr now)
    (obj_assign (obj_assign [] oldItem) (updatedFields b)).

Definition not_found (itemSlug : string) : response :=
  Response 404
    (PNotFound (type +:+ " con slug '" +:+ itemSlug +:+ "' non trovato.")).

(** PUT /<plural>/:slug *)
Definition put (rid : nat) (now : string) (itemSlug : string) (b : body)
    (items : list obj) : handled :=
  match list_find (has_slug (Some (JStr itemSlug))) items with
  | None => Reply (not_found itemSlug)
  | Some (itemIndex, oldItem) =>
      if (0 <? length (readonlyAttemptsToUpdate b))%nat then
        Reply (Response 400
                 (PReadonly ("Non puoi modificare proprietà readonly: "
                             +:+ join ", " (readonlyAttemptsToUpdate b))))
      else
        let validationResult :=
          if (0 <? length (obj_keys (fieldsToValidate b)))%nat
          then object_validator issues (JObj (merged oldItem b))
          else Valid in
        match validationResult with
        | Invalid errors =>
            Reply (Response 400
                     (PInvalid ("Dati " +:+ type +:+ " non validi") errors))
        | Valid =>
            Saved (<[itemIndex := updated oldItem b now]> items)
              (KPut rid type itemIndex)
        end
  end.

(** DELETE /<plural>/:id *)
Definition del (rid : nat) (itemId : option Z) (items : list obj)
  : handled :=
  let filteredItems := filter (λ p, ¬ id_is itemId p) items in
  if (length filteredItems =? length items)%nat then
    Reply (Response 404
             (PNotFound (type +:+ " with id '"
                         +:+ from_option pretty "NaN" itemId
                         +:+ "' not found.")))
  else Saved filteredItems (KDelete rid).
End Handlers.

Inductive request : Type :=
| Post (type : string) (b : body)
| Put (type : string) (itemSlug : string) (b : body)
| Delete (type : string) (itemId : option Z).

Definition request_type (r : request) : string :=
  match r with Post t _ | Put t _ _ | Delete t _ => t end.

(** One macrotask of the event loop. [now] is what [new Date()] reads
    while the handler runs. *)
Inductive event : Type :=
| EvRequest (rid : nat) (now : string) (r : request)
| EvSettle (i : nat) (ok : bool)
| EvImmediate.

Section Server.
Variable validators : jsobj (obj → list verror).
Variable readonlyProperties : jsobj (list string).

Definition resourceTypes : list string := obj_keys validators.

(** The handler of a request on its collection; a type without a
    validator has no routes. *)
Definition handler (rid : nat) (now : string) (r : request)
    (items : list obj) : option handled :=
  let type := request_type r in
  match obj_get type validators with
  | None => None
  | Some issues =>
      Some match r with
           | Post _ b => post type issues rid now b items
           | Put _ itemSlug b =>
               put type issues (default [] (obj_get type readonlyProperties))
                 rid now itemSlug b items
           | Delete _ itemId => del type rid itemId items
           end
  end.

Definition handle (rid : nat) (now : string) (r : request) (s : server)
  : server :=
  let type := request_type r in
  match handler rid now r (collection s type) with
  | None => s
  | Some (Reply resp) => respond rid resp s
  | Some (Saved items k) => saveData type k (set_cache type items s)
  end.

Definition step (s : server) (ev : event) : server :=
  match phase_of s, ev with
  | Exited _, _ => s
  | Listening, EvRequest rid now r => handle rid now r s
  | Starting _, EvRequest _ _ _ => s
  | _, EvSettle i ok => settle i ok s
  | _, EvImmediate => immediate s
  end.

Definition run (s : server) (evs : list event) : server :=
  fold_left step evs s.
End Server.

(** *** The loader *)

(** A thrown JavaScript error, with its message. *)
Inductive result (A : Type) : Type :=
| Ok (a : A)
| Throw (message : string).
Arguments Ok {A} a.
Arguments Throw {A} message.

#[global] Instance result_ret : MRet result := λ A a, Ok a.
#[global] Instance result_bind : MBind result := λ A B f r,
  match r with Ok a => f a | Throw m => Throw m end.

(** What [existsSync], [fs.mkdir], [fs.readFile], [trim] and [JSON.parse]
    find of a collection file. *)
Inductive file_view : Type :=
| Missing
| Blank                         (* only white space *)
| Unparsable (message : string) (* JSON.parse throws a SyntaxError *)
| Parsed (loadedData : json)
| Unreadable (message : string) (* fs.mkdir or fs.readFile is rejected *).

(** Names that [fieldErrors = {}] inherits from [Object.prototype]: under
    them [fieldErrors[error.field]] is not an array of messages. *)
Definition object_prototype_keys : list string :=
  [ "constructor"; "__defineGetter__"; "__defineSetter__"; "hasOwnProperty";
    "__lookupGetter__"; "__lookupSetter__"; "isPrototypeOf";
    "propertyIsEnumerable"; "toString"; "valueOf"; "__proto__";
    "toLocaleString" ].

(** The first loop of [formatValidationErrors]: messages by field. *)
Definition group_errors (errors : list verror)
  : result (jsobj (list string)) :=
  foldl (λ acc error,
           fieldErrors ← acc;
           if bool_decide (field error ∈ object_prototype_keys)
           then Throw "fieldErrors[error.field].push is not a function"
           else
             Ok (obj_set (field error)
                   (default [] (obj_get (field error) fieldErrors)
                    ++ [message error])
                   fieldErrors))
    (Ok []) errors.

Definition format_field (entry : string * list string) : string :=
  let fieldName := if bool_decide (entry.1 = "") then "Generale" else entry.1 in
  nl +:+ "   • " +:+ fieldName +:+ ": " +:+ join ", " entry.2.

Definition formatValidationErrors (errors : list verror) : result string :=
  fieldErrors ← group_errors errors;
  Ok (foldl (λ formattedMessage entry, formattedMessage +:+ format_field entry)
        "" fieldErrors).

(** An entry of [invalidItems]; [id] is as the report prints it. *)
Record invalid_item : Type := InvalidItem {
  index : nat;
  id : string;
  errors : list verror
}.

(** [item.id || "sconosciuto"], as the report prints it. *)
Definition item_id (item : json) : result string :=
  match item with
  | JNull => Throw "Cannot read properties of null (reading 'id')"
  | JObj o =>
      Ok (if truthy (obj_get "id" o)
          then from_option to_string "" (obj_get "id" o)
          else "sconosciuto")
  | _ => Ok "sconosciuto"
  end.

(** The validation loop of [loadData], from index [i]. *)
Fixpoint invalidItems (issues : obj → list verror) (i : nat)
    (loadedData : list json) : result (list invalid_item) :=
  match loadedData with
  | [] => Ok []
  | item :: rest =>
      match object_validator issues item with
      | Valid => invalidItems issues (S i) rest
      | Invalid errors =>
          id ← item_id item;
          more ← invalidItems issues (S i) rest;
          Ok (InvalidItem i id errors :: more)
      end
  end.

Definition report_item (item : invalid_item) : result string :=
  formatted ← formatValidationErrors (errors item);
  Ok (nl +:+ "🚫 Elemento #" +:+ pretty (index item + 1) +:+ " (ID: "
      +:+ id item +:+ ") non valido:" +:+ formatted +:+ nl).

(** The message thrown when [invalidItems] is not empty. *)
Definition validation_report (type : string) (items : list invalid_item)
  : result string :=
  errorMessage ←
    foldl (λ acc item,
             errorMessage ← acc;
             text ← report_item item;
             Ok (errorMessage +:+ text))
      (Ok (nl +:+ "⛔ Errori di validazione nel file " +:+ type
           +:+ ".json. Il server non può partire." +:+ nl))
      items;
  Ok (errorMessage +:+ nl +:+ "Correggi questi errori nel file database/"
      +:+ type +:+ ".json per avviare il server.").

(** The records of a validated array. *)
Definition records (loadedData : list json) : list obj :=
  omap (λ item, match item with JObj o => Some o | _ => None end) loadedData.

(** The [try] block around [JSON.parse]: the collection to cache, or the
    message of what was thrown. *)
Definition parse_and_validate (type : string) (issues : obj → list verror)
    (loadedData : json) : result (list obj) :=
  match loadedData with
  | JArr items =>
      invalid ← invalidItems issues 0 items;
      match invalid with
      | [] => Ok (records items)
      | _ => errorMessage ← validation_report type invalid; Throw errorMessage
      end
  | _ =>
      Throw ("Errore di struttura nel file " +:+ type
             +:+ ".json: il file deve contenere un array.")
  end.

(** The [catch (parseError)] of [loadData]. *)
Definition syntax_error (type message : string) : string :=
  "Errore di sintassi JSON nel file " +:+ type +:+ ".json:" +:+ nl
  +:+ message +:+ nl
  +:+ "Controlla la sintassi del file e assicurati che sia un JSON valido.".

Definition start_loading (type : string) (s : server) : server :=
  match phase_of s with
  | Starting loading => set_phase (Starting (loading ++ [type])) s
  | _ => s
  end.

(** [loadData(type)], up to its [await saveData(type)] when the file is
    missing: the state, or the message the promise is rejected with. What
    the inner [try] throws is wrapped by its [catch]; a rejection of
    [fs.mkdir] or [fs.readFile] is thrown again as it is. *)
Definition loadData (type : string) (issues : obj → list verror)
    (view : file_view) (s : server) : result server :=
  match view with
  | Missing =>
      Ok (saveData type (KLoad type) (start_loading type (set_cache type [] s)))
  | Blank => Ok (set_cache type [] s)
  | Unparsable message => Throw (syntax_error type message)
  | Parsed loadedData =>
      match parse_and_validate type issues loadedData with
      | Ok items => Ok (set_cache type items s)
      | Throw message => Throw (syntax_error type message)
      end
  | Unreadable message => Throw message
  end.

Section Startup.
Variable validators : jsobj (obj → list verror).
Variable views : string → file_view.

(** [cache] and [writeQueues] after the [forEach] over the types. *)
Definition init : server :=
  Server (list_to_map ((λ type, (type, [])) <$> resourceTypes validators))
    (list_to_map ((λ type, (type, [])) <$> resourceTypes validators))
    [] [] ∅ [] (Starting []).

(** The loads of the types, in the order of [resourceTypes]; the first
    one rejected is the one [Promise.all] reports. *)
Fixpoint load_all (types : jsobj (obj → list verror)) (s : server)
  : result server :=
  match types with
  | [] => Ok s
  | (type, issues) :: rest =>
      s ← loadData type issues (views type) s; load_all rest s
  end.

(** The server after [Promise.all(loadPromises)] and its [then] or
    [catch]: listening, waiting for the files it creates, or exited
    with the message it printed. *)
Definition boot : server :=
  match load_all validators init with
  | Throw message => set_phase (Exited message) init
  | Ok s =>
      match phase_of s with
      | Starting [] => set_phase Listening s
      | _ => s
      end
  end.
End Startup.

End Store.
Export Store.

(** ** The server of the repository: one type, [game] *)

Module Game.

(** Two bodies a client may post; the first one carries an [id]. *)
Definition half_life : obj :=
  [ ("id", JNum 7); ("title", JStr "Half-Life 2");
    ("slug", JStr "half-life-2"); ("category", JStr "FPS");
    ("releaseYear", JNum 2004); ("developer", JStr "Valve");
    ("rating", JStr "M"); ("description", JStr "Sequel");
    ("price", JStr "9.99"); ("imagesExtra", JArr []);
    ("tags", JArr [JStr "fps"]) ].

Definition portal : obj :=
  [ ("title", JStr "Portal"); ("slug", JStr "portal");
    ("category", JStr "Puzzle"); ("releaseYear", JNum 2007);
    ("developer", JStr "Valve"); ("rating", JStr "T");
    ("description", JStr "Cake"); ("price", JStr "4.99");
    ("imagesExtra", JArr []); ("tags", JArr []) ].

(** The record [post] makes of a body at time [now]. *)
Definition stored (now : string) (o : obj) : obj :=
  obj_set "updatedAt" (JStr now)
    (obj_set "createdAt" (JStr now) (obj_delete "id" o)).

(** Every collection file exists and is blank. *)
Definition blank_files : string → file_view := λ _, Blank.

(** The server started on blank files. *)
Definition started : server := boot Schema.validators blank_files.

Definition step : server → event → server :=
  Store.step Schema.validators Schema.readonlyProperties.
Definition run : server → list event → server :=
  Store.run Schema.validators Schema.readonlyProperties.

(** A file in which two records have the same slug, and one in which the
    slugs differ. *)
Definition duplicate_files : string → file_view :=
  λ _, Parsed (JArr [JObj portal; JObj portal]).
Definition two_games_files : string → file_view :=
  λ _, Parsed (JArr [JObj half_life; JObj portal]).

(** A file whose first record lacks most fields and whose second element
    is [null], and the same file without the [null]. *)
Definition broken : obj := [("slug", JStr "broken"); ("id", JNum 4)].
Definition null_element_files : string → file_view :=
  λ _, Parsed (JArr [JObj broken; JNull]).
Definition broken_files : string → file_view :=
  λ _, Parsed (JArr [JObj broken; JObj portal; JNum 3]).

(** A table of read-only properties that protects the price. *)
Definition price_readonly : jsobj (list string) := [("game", ["price"])].

Definition post_half_life : event :=
  EvRequest 1 "t1" (Post "game" (BObj half_life)).
Definition post_portal : event :=
  EvRequest 2 "t2" (Post "game" (BObj portal)).

End Game.

(** ** The routes that only read, and their paths *)

Module Routes.

(** [s.endsWith(suffix)]: a tail of [s] is [suffix]. *)
Fixpoint endsWith (s suffix : string) : bool :=
  bool_decide (s = suffix)
  || match s with
     | EmptyString => false
     | String _ s' => endsWith s' suffix
     end.

(** [s.slice(0, -1)]: [s] without its last character. *)
Fixpoint slice_0_minus1 (s : string) : string :=
  match s with
  | EmptyString => ""
  | String _ EmptyString => ""
  | String c s' => String c (slice_0_minus1 s')
  end.

(** [getPlural(singular)], the path segment of a resource type. *)
Definition getPlural (singular : string) : string :=
  if endsWith singular "y" then slice_0_minus1 singular +:+ "ies"
  else if endsWith singular "s" || endsWith singular "x"
          || endsWith singular "z" || endsWith singular "ch"
          || endsWith singular "sh"
  then singular +:+ "es"
  else singular +:+ "s".

(** GET /<plural>/:slug on the collection of the type. *)
Definition getBySlug (type itemSlug : string) (items : list obj) : response :=
  match list_find (has_slug (Some (JStr itemSlug))) items with
  | None => not_found type itemSlug
  | Some (_, item) => Response 200 (PItem type (Some item))
  end.

(** GET /<plural>: [{ success: true, [pluralType]: cache[type] }], as the
    key and the records under it. *)
Definition getAll (type : string) (items : list obj) : string * list obj :=
  (getPlural type, items).

End Routes.
Export Routes.

(** ** The properties *)

(** The states the server goes through, from its startup on the files
    [views]. *)
Definition reachable (validators : jsobj (obj → list verror))
    (readonlyProperties : jsobj (list string)) (views : string → file_view)
    (s : server) : Prop :=
  ∃ evs, s = run validators readonlyProperties (boot validators views) evs.

(** No task is waiting in a queue and no drain loop is scheduled. *)
Definition drained (s : server) : Prop :=
  (∀ type, queue s type = []) ∧ immediates s = [].

(** The file writes of a type that are in flight. *)
Definition inflight_of (type : string) (s : server) : list write :=
  filter (λ w, task_type (write_task w) = type) (inflight s).

(** The request a continuation answers. *)
Definition answers (k : cont) : option nat :=
  match k with
  | KPost rid _ _ | KPut rid _ _ | KDelete rid => Some rid
  | KLoad _ => None
  end.

Definition slugs (items : list obj) : list (option json) :=
  obj_get "slug" <$> items.

(** No two values of the list are [===]. *)
Fixpoint distinct (l : list (option json)) : Prop :=
  match l with
  | [] => True
  | x :: l' => Forall (λ y, strict_eq x y = false) l' ∧ distinct l'
  end.

(** The slugs of every collection are unique. *)
Definition unique_slugs (s : server) : Prop :=
  ∀ type, distinct (slugs (collection s type)).

(** The record has no [id] property. *)
Definition no_id (p : obj) : Prop := obj_get "id" p = None.

(** All records of the cache pass the validator of their type. *)
Definition cache_valid (validators : jsobj (obj → list verror)) (s : server)
  : Prop :=
  ∀ type issues, obj_get type validators = Some issues →
    Forall (λ p, issues p = []) (collection s type).

(** A collection of the cache is empty or holds the records of its file,
    in the order of the file, all of them passed by a validator of the
    type. *)
Definition as_loaded (validators : jsobj (obj → list verror))
    (views : string → file_view) (s : server) : Prop :=
  ∀ type, collection s type = []
          ∨ ∃ items issues,
              (type, issues) ∈ validators
              ∧ views type = Parsed (JArr items)
              ∧ invalidItems issues 0 items = Ok []
              ∧ collection s type = records items.

(** Every record of the [game] collection passes [validateGame]. *)
Definition game_valid (s : server) : Prop :=
  Forall (λ p, object_issues GameSchema p = []) (collection s "game").

(** A file that the loader refuses: it cannot be read, it does not parse,
    it does not hold an array, or an element of the array fails the
    validator. *)
Definition refused (issues : obj → list verror) (view : file_view) : Prop :=
  match view with
  | Missing | Blank => False
  | Unparsable _ => True
  | Parsed (JArr items) =>
      Exists (λ item, object_validator issues item ≠ Valid) items
  | Parsed _ => True
  | Unreadable _ => True
  end.

(** The body names a property that an update may set and that the type
    declares read-only. *)
Definition touches_readonly (typeReadonlyProps : list string) (b : body)
  : Prop :=
  ∃ key, key ∈ obj_keys (body_props b)
         ∧ (key ∉ ["slug"; "id"; "createdAt"; "updatedAt"])
         ∧ key ∈ typeReadonlyProps.

(** The body has no property named [__proto__]. *)
Definition no_proto_key (b : body) : Prop :=
  obj_get "__proto__" (body_props b) = None.

(** The event is no update whose body has a property named [__proto__]. *)
Definition no_proto_update (ev : event) : Prop :=
  match ev with
  | EvRequest _ _ (Put _ _ b) => no_proto_key b
  | _ => True
  end.

(** The states the server goes through, from its startup on the files
    [views], as long as no update carries a property named [__proto__]. *)
Definition reachable_no_proto (validators : jsobj (obj → list verror))
    (readonlyProperties : jsobj (list string)) (views : string → file_view)
    (s : server) : Prop :=
  ∃ evs, Forall no_proto_update evs
         ∧ s = run validators readonlyProperties (boot validators views) evs.

(** * Proofs *)

(** ** Reading an object after it was written *)

Section ObjectLaws.
Context {A : Type}.
Implicit Types (o t s : jsobj A) (k : string) (v : A).

Lemma obj_get_app k o o' :
  obj_get k (o ++ o') =
  match obj_get k o with Some v => Some v | None => obj_get k o' end.
Proof.
  induction o as [|[k0 v0] o IH]; simpl; [done|].
  by destruct (decide (k = k0)).
Qed.

Lemma obj_get_replace k k' v o :
  obj_get k (obj_replace k' v o) =
  if decide (k = k') then (λ _, v) <$> obj_get k' o else obj_get k o.
Proof.
  induction o as [|[k0 v0] o IH]; simpl.
  - by case_decide.
  - rewrite ?IH; repeat (case_decide; simplify_eq/=); try done;
      rewrite ?IH; repeat (case_decide; simplify_eq/=); done.
Qed.

Lemma obj_get_insert_index n k k' v o :
  obj_get k' o = None →
  obj_get k (obj_insert_index n k' v o) =
  if decide (k = k') then Some v else obj_get k o.
Proof.
  induction o as [|[k0 v0] o IH]; simpl; intros Hnone.
  - by case_decide.
  - destruct (decide (k' = k0)) as [->|Hne]; [done|].
    destruct (array_index k0) as [m|]; [destruct (m <? n)%N|]; simpl;
      rewrite ?IH by done; repeat (case_decide; simplify_eq/=); done.
Qed.

(** Reading [k] after the assignment [o[k'] = v]. *)
Lemma obj_get_set k k' v o :
  obj_get k (obj_set k' v o) =
  if decide (k = k') then Some v else obj_get k o.
Proof.
  unfold obj_set. destruct (obj_get k' o) as [w|] eqn:Hget.
  - rewrite obj_get_replace, Hget. by destruct (decide (k = k')).
  - destruct (array_index k') as [n|].
    + by apply obj_get_insert_index.
    + rewrite obj_get_app; simpl.
      destruct (decide (k = k')) as [->|]; [by rewrite Hget|].
      by destruct (obj_get k o).
Qed.

(** Reading [k] after [delete o[k']]. *)
Lemma obj_get_delete k k' o :
  obj_get k (obj_delete k' o) =
  if decide (k = k') then None else obj_get k o.
Proof.
  unfold obj_delete. induction o as [|[k0 v0] o IH].
  - simpl. by case_decide.
  - rewrite filter_cons. simpl.
    repeat (case_decide; simplify_eq/=); rewrite ?IH;
      repeat (case_decide; simplify_eq/=); done.
Qed.

Lemma obj_get_keys k o : k ∈ obj_keys o ↔ is_Some (obj_get k o).
Proof.
  unfold obj_keys. induction o as [|[k0 v0] o IH]; simpl.
  - split; [by intros ?%elem_of_nil|by intros [? ?]].
  - rewrite elem_of_cons, IH. case_decide; naive_solver.
Qed.

Lemma obj_keys_delete k k' o :
  k ∈ obj_keys (obj_delete k' o) ↔ k ≠ k' ∧ k ∈ obj_keys o.
Proof.
  rewrite !obj_get_keys, obj_get_delete.
  case_decide; [|naive_solver].
  split; [by intros [? ?]|naive_solver].
Qed.

Lemma obj_get_assign_keys k s ks t :
  obj_get k
    (fold_left (λ acc k0, match obj_get k0 s with
                          | Some v => obj_set k0 v acc
                          | None => acc
                          end) ks t) =
  if decide (k ∈ ks)
  then match obj_get k s with Some v => Some v | None => obj_get k t end
  else obj_get k t.
Proof.
  revert t. induction ks as [|k0 ks IH]; intros t; simpl.
  - done.
  - rewrite IH. destruct (decide (k = k0)) as [->|Hne].
    + destruct (decide (k0 ∈ k0 :: ks)) as [_|Hn];
        [|exfalso; apply Hn, elem_of_cons; by left].
      destruct (obj_get k0 s) as [v|] eqn:Hs;
        rewrite ?obj_get_set; repeat case_decide; done.
    + assert (obj_get k
                match obj_get k0 s with
                | Some v => obj_set k0 v t
                | None => t
                end = obj_get k t) as ->.
      { destruct (obj_get k0 s); [|done].
        rewrite obj_get_set. by rewrite decide_False. }
      destruct (decide (k ∈ ks)) as [Hin|Hnin],
               (decide (k ∈ k0 :: ks)) as [Hin'|Hnin']; try done.
      * exfalso. apply Hnin', elem_of_cons. by right.
      * exfalso. apply elem_of_cons in Hin' as [?|?]; done.
Qed.

(** Reading [k] from [{...t, ...s}]: the source wins where it has [k]. *)
Lemma obj_get_assign k t s :
  obj_get k (obj_assign t s) =
  match obj_get k s with Some v => Some v | None => obj_get k t end.
Proof.
  unfold obj_assign. rewrite obj_get_assign_keys.
  destruct (decide (k ∈ obj_keys s)) as [Hin|Hnin]; [done|].
  destruct (obj_get k s) eqn:Hs; [|done].
  exfalso. apply Hnin, obj_get_keys. by rewrite Hs.
Qed.
End ObjectLaws.

(** Only objects pass an object schema. *)
Lemma object_validator_valid issues data :
  object_validator issues data = Valid ↔ ∃ o, data = JObj o ∧ issues o = [].
Proof.
  destruct data as [| | | | |o]; simpl; try (split; [done|by intros (?&?&?)]).
  destruct (issues o) eqn:Hi; split; try done.
  - eauto.
  - intros (o'&[= <-]&Hi'). congruence.
Qed.

(** ** The state after the operations of the write queue *)

Lemma queue_set_queue type type' q s :
  queue (set_queue type q s) type' =
  if decide (type = type') then q else queue s type'.
Proof.
  unfold queue, set_queue; simpl. rewrite lookup_insert.
  by case_decide.
Qed.

Lemma collection_set_cache type type' items s :
  collection (set_cache type items s) type' =
  if decide (type = type') then items else collection s type'.
Proof.
  unfold collection, set_cache; simpl. rewrite lookup_insert.
  by case_decide.
Qed.

(** On an empty queue, [saveData] starts the file write at once and
    leaves the queue empty. *)
Lemma saveData_idle type k s :
  queue s type = [] →
  saveData type k s =
  set_inflight (inflight s ++ [Write (Task type k) (snapshot s type)])
    (set_queue type [] (set_queue type [Task type k] s)).
Proof.
  intros Hq. unfold saveData. rewrite Hq; simpl.
  rewrite queue_set_queue, decide_True by done; simpl.
  unfold processWriteQueue. rewrite queue_set_queue, decide_True by done.
  done.
Qed.

Lemma saveData_drained type k s : drained s → drained (saveData type k s).
Proof.
  intros [Hq Hi]. rewrite saveData_idle by done. split; [|done].
  intros t. unfold queue; simpl. rewrite !lookup_insert.
  repeat case_decide; simpl; try done. apply Hq.
Qed.

Lemma resume_queue k s type : queue (resume k s) type = queue s type.
Proof.
  destruct k; simpl; try done.
  destruct (phase_of s); try done. by destruct (filter _ _).
Qed.

Lemma resume_immediates k s : immediates (resume k s) = immediates s.
Proof.
  destruct k; simpl; try done.
  destruct (phase_of s); try done. by destruct (filter _ _).
Qed.

Lemma resume_cache k s : cache (resume k s) = cache s.
Proof.
  destruct k; simpl; try done.
  destruct (phase_of s); try done. by destruct (filter _ _).
Qed.

Lemma resume_files k s : files (resume k s) = files s.
Proof.
  destruct k; simpl; try done.
  destruct (phase_of s); try done. by destruct (filter _ _).
Qed.

Lemma resume_inflight k s : inflight (resume k s) = inflight s.
Proof.
  destruct k; simpl; try done.
  destruct (phase_of s); try done. by destruct (filter _ _).
Qed.

Lemma settle_drained i ok s : drained s → drained (settle i ok s).
Proof.
  intros [Hq Hi]. unfold settle. destruct (inflight s !! i) as [w|]; [|done].
  unfold processWriteQueue_next. rewrite resume_queue.
  assert (∀ t, queue (if ok then set_file (task_type (write_task w))
                                  (write_data w)
                                  (set_inflight (delete i (inflight s)) s)
                      else forget_file (task_type (write_task w))
                             (set_inflight (delete i (inflight s)) s)) t = [])
    as Hq'.
  { intros t. destruct ok; apply Hq. }
  rewrite Hq'; simpl. split.
  - intros t. by rewrite resume_queue.
  - rewrite resume_immediates. by destruct ok.
Qed.

Lemma immediate_drained s : drained s → immediate s = s.
Proof. intros [_ Hi]. unfold immediate. by rewrite Hi. Qed.

Lemma set_cache_drained type items s : drained s → drained (set_cache type items s).
Proof. intros [Hq Hi]. split; [intros t; apply Hq|done]. Qed.

Lemma respond_drained rid r s : drained s → drained (respond rid r s).
Proof. intros [Hq Hi]. split; [intros t; apply Hq|done]. Qed.

Lemma set_phase_drained p s : drained s → drained (set_phase p s).
Proof. intros [Hq Hi]. split; [intros t; apply Hq|done]. Qed.

Lemma step_drained validators readonlyProperties s ev :
  drained s → drained (step validators readonlyProperties s ev).
Proof.
  intros Hd. unfold step.
  destruct (phase_of s), ev; try done;
    try (by apply settle_drained); try (by rewrite immediate_drained).
  unfold handle. destruct (handler _ _ _ _ _ _) as [[resp|items k]|]; [| |done].
  - by apply respond_drained.
  - by apply saveData_drained, set_cache_drained.
Qed.

Lemma run_drained validators readonlyProperties evs s :
  drained s → drained (run validators readonlyProperties s evs).
Proof.
  revert s. induction evs as [|ev evs IH]; intros s Hd; [done|].
  simpl. by apply IH, step_drained.
Qed.

Lemma init_drained validators : drained (init validators).
Proof.
  split; [|done]. intros t. unfold queue, init; simpl.
  destruct (list_to_map _ !! t) as [q|] eqn:Hq; [|done]. simpl.
  apply elem_of_list_to_map_2, list_elem_of_fmap in Hq as (?&[= _ ->]&_).
  done.
Qed.

Lemma loadData_drained type issues view s s' :
  drained s → loadData type issues view s = Ok s' → drained s'.
Proof.
  intros Hd. destruct view; simpl.
  - intros [= <-]. apply saveData_drained.
    unfold start_loading. destruct (phase_of _); by apply set_cache_drained.
  - intros [= <-]. by apply set_cache_drained.
  - done.
  - destruct (parse_and_validate _ _ _); [|done].
    intros [= <-]. by apply set_cache_drained.
  - done.
Qed.

Lemma load_all_drained views types s s' :
  drained s → load_all views types s = Ok s' → drained s'.
Proof.
  revert s. induction types as [|[type issues] types IH]; intros s Hd; simpl.
  - by intros [= <-].
  - destruct (loadData _ _ _ _) as [s1|] eqn:Hl; simpl; [|done].
    apply IH. by eapply loadData_drained.
Qed.

Lemma boot_drained validators views : drained (boot validators views).
Proof.
  unfold boot. destruct (load_all _ _ _) as [s|] eqn:Hl.
  - pose proof (load_all_drained _ _ _ _ (init_drained validators) Hl) as Hd.
    destruct (phase_of s) as [[|]| |]; done.
  - apply set_phase_drained, init_drained.
Qed.

(** The queues never hold a task between two steps: whatever the server
    went through, every [saveData] finds its queue empty. *)
Lemma reachable_drained validators readonlyProperties views s :
  reachable validators readonlyProperties views s → drained s.
Proof. intros [evs ->]. apply run_drained, boot_drained. Qed.

(** ** What the handlers do when they accept a request *)

Lemma post_saved type issues rid now b items items' k :
  post type issues rid now b items = Saved items' k →
  ∃ o, let newItem := obj_set "updatedAt" (JStr now)
                        (obj_set "createdAt" (JStr now) (obj_delete "id" o)) in
    b = BObj o ∧ issues o = [] ∧
    truthy (obj_get "slug" newItem) = true ∧
    ¬ Exists (has_slug (obj_get "slug" newItem)) items ∧
    items' = items ++ [newItem] ∧ k = KPost rid type newItem.
Proof.
  unfold post. destruct (object_validator _ _) eqn:Hv; [|done].
  apply object_validator_valid in Hv as (o&Hb&Hi).
  destruct b as [o'|l]; simpl in Hb; [|done]. injection Hb as ->. simpl.
  rewrite !obj_get_delete; simpl.
  destruct (truthy (obj_get "slug" o)) eqn:Ht; simpl; [|done].
  case_bool_decide as Hex; [done|]. intros [= <- <-].
  exists o. simpl. rewrite !obj_get_set, obj_get_delete; simpl.
  repeat split; try done.
Qed.

Lemma put_saved type issues ro rid now itemSlug b items items' k :
  put type issues ro rid now itemSlug b items = Saved items' k →
  ∃ itemIndex oldItem,
    list_find (has_slug (Some (JStr itemSlug))) items
      = Some (itemIndex, oldItem) ∧
    readonlyAttemptsToUpdate ro b = [] ∧
    items' = <[itemIndex := updated oldItem b now]> items ∧
    k = KPut rid type itemIndex.
Proof.
  unfold put. destruct (list_find _ _) as [[i old]|]; [|done].
  destruct (readonlyAttemptsToUpdate ro b); [|done]. simpl.
  destruct (if (0 <? _)%nat then _ else _); [|done].
  intros [= <- <-]. by exists i, old.
Qed.

Lemma del_saved type rid itemId items items' k :
  del type rid itemId items = Saved items' k →
  items' = filter (λ p, ¬ id_is itemId p) items ∧ k = KDelete rid ∧
  length items' ≠ length items.
Proof.
  unfold del. destruct (_ =? _)%nat eqn:Hlen; [done|].
  intros [= <- <-]. by apply Nat.eqb_neq in Hlen.
Qed.

(** A handler that accepts a request leaves a continuation answering that
    request. *)
Lemma handler_saved_answers validators readonlyProperties rid now r items
    items' k :
  handler validators readonlyProperties rid now r items
    = Some (Saved items' k) →
  answers k = Some rid.
Proof.
  unfold handler. destruct (obj_get _ validators) as [issues|]; [|done].
  intros [= H]. destruct r; simpl in H.
  - by apply post_saved in H as (?&?&?&?&?&?&->).
  - by apply put_saved in H as (?&?&?&?&?&->).
  - by apply del_saved in H as (?&->&?).
Qed.

(** ** The write queue *)

(** C1, on the code: two creates of the same type, the second one handled
    before the file write of the first has settled, leave two file writes
    of that type in flight at once. The queue is empty again as soon as the
    first task was taken off it, so the second [saveData] starts a drain
    loop of its own. *)
Theorem overlapping_writes_same_type :
  let s := Game.run Game.started [Game.post_half_life; Game.post_portal] in
  queue s "game" = [] ∧
  immediates s = [] ∧
  inflight_of "game" s =
    [ Write (Task "game" (KPost 1 "game" (Game.stored "t1" Game.half_life)))
        (JSON_stringify (JArr [JObj (Game.stored "t1" Game.half_life)]));
      Write (Task "game" (KPost 2 "game" (Game.stored "t2" Game.portal)))
        (JSON_stringify (JArr [JObj (Game.stored "t1" Game.half_life);
                               JObj (Game.stored "t2" Game.portal)])) ].
Proof. vm_compute. done. Qed.

(** C2, on the code: two creates of the same type are handled one after
    the other, and the file write of the second settles before that of the
    first. Both tasks are done, the cache holds both records, and the file
    holds the text of the first task only. *)
Theorem stale_write_lands_last :
  let s := Game.run Game.started
             [Game.post_half_life; Game.post_portal;
              EvSettle 1 true; EvSettle 0 true] in
  inflight s = [] ∧ queue s "game" = [] ∧ immediates s = [] ∧
  collection s "game" =
    [Game.stored "t1" Game.half_life; Game.stored "t2" Game.portal] ∧
  files s !! "game" =
    Some (JSON_stringify (JArr [JObj (Game.stored "t1" Game.half_life)])) ∧
  files s !! "game" ≠ Some (snapshot s "game").
Proof. vm_compute. repeat split; done. Qed.

(** C3 as stated fails: once the create is handled the cache holds the new
    record, yet no response was sent; the answer waits in the task of the
    pending file write and is sent when that write settles. *)
Lemma create_answer_waits_for_write :
  let s := Game.step Game.started Game.post_half_life in
  collection s "game" = [Game.stored "t1" Game.half_life] ∧
  responses s = [] ∧
  (task_resolve ∘ write_task) <$> inflight s =
    [KPost 1 "game" (Game.stored "t1" Game.half_life)] ∧
  responses (Game.step s (EvSettle 0 true)) =
    [(1, Response 201
           (PItem "game" (Some (Game.stored "t1" Game.half_life))))].
Proof. vm_compute. done. Qed.

(** C3, amended: handling an accepted create, update or delete applies the
    mutation to the cache and starts the file write of its persistence
    task, and sends nothing; the response to the request is sent by the
    step in which that file write settles, with success or with an
    error. *)
Theorem answer_sent_when_write_settles validators readonlyProperties views
    s rid now r items k :
  reachable validators readonlyProperties views s →
  phase_of s = Listening →
  handler validators readonlyProperties rid now r
    (collection s (request_type r)) = Some (Saved items k) →
  let s1 := step validators readonlyProperties s (EvRequest rid now r) in
  collection s1 (request_type r) = items ∧
  responses s1 = responses s ∧
  inflight s1 =
    inflight s
    ++ [Write (Task (request_type r) k) (snapshot s1 (request_type r))] ∧
  ∀ s2 i w ok,
    phase_of s2 = Listening →
    inflight s2 !! i = Some w →
    task_resolve (write_task w) = k →
    ∃ resp,
      responses (step validators readonlyProperties s2 (EvSettle i ok))
      = responses s2 ++ [(rid, resp)].
Proof.
  intros Hreach Hphase Hh s1.
  assert (s1 = saveData (request_type r) k
                 (set_cache (request_type r) items s)) as Hs1.
  { unfold s1, step, handle. by rewrite Hphase, Hh. }
  apply reachable_drained in Hreach as Hd.
  rewrite saveData_idle in Hs1 by apply set_cache_drained, Hd.
  assert (collection s1 (request_type r) = items) as Hc.
  { rewrite Hs1. unfold collection; simpl. by rewrite lookup_insert_eq. }
  split_and!; [done|by rewrite Hs1| |].
  - rewrite Hs1 at 1. simpl. do 3 f_equal.
    unfold snapshot. rewrite Hc.
    unfold collection; simpl. by rewrite lookup_insert_eq.
  - intros s2 i w ok Hp2 Hw Hk. unfold step. rewrite Hp2.
    unfold settle. rewrite Hw, Hk. unfold processWriteQueue_next.
    apply handler_saved_answers in Hh.
    destruct k as [rid' ty item|rid' ty idx|rid'|ty]; simpl in Hh;
      simplify_eq; eexists; destruct (0 <? _)%nat, ok; simpl; reflexivity.
Qed.

(** The server on blank files accepts the create of [half_life]. *)
Lemma answer_sent_when_write_settles_witness :
  let s1 := Game.step Game.started Game.post_half_life in
  collection s1 "game" = [Game.stored "t1" Game.half_life] ∧
  responses s1 = [] ∧
  inflight s1 =
    [] ++ [Write (Task "game" (KPost 1 "game" (Game.stored "t1" Game.half_life)))
             (snapshot s1 "game")].
Proof.
  pose proof (answer_sent_when_write_settles Schema.validators
                Schema.readonlyProperties Game.blank_files Game.started
                1 "t1" (Post "game" (BObj Game.half_life))
                [Game.stored "t1" Game.half_life]
                (KPost 1 "game" (Game.stored "t1" Game.half_life))) as H.
  simpl in H. destruct H as (H1 & H2 & H3 & _).
  - by exists [].
  - reflexivity.
  - vm_compute. reflexivity.
  - split_and!; [exact H1|exact H2|exact H3].
Defined.

(** ** The cache under the handlers *)

Lemma saveData_cache type k s : cache (saveData type k s) = cache s.
Proof.
  unfold saveData. destruct (_ =? _)%nat; [|done].
  unfold processWriteQueue. by destruct (queue _ _).
Qed.

Lemma saveData_responses type k s :
  responses (saveData type k s) = responses s.
Proof.
  unfold saveData. destruct (_ =? _)%nat; [|done].
  unfold processWriteQueue. by destruct (queue _ _).
Qed.

Lemma saveData_files type k s : files (saveData type k s) = files s.
Proof.
  unfold saveData. destruct (_ =? _)%nat; [|done].
  unfold processWriteQueue. by destruct (queue _ _).
Qed.

Lemma saveData_phase type k s : phase_of (saveData type k s) = phase_of s.
Proof.
  unfold saveData. destruct (_ =? _)%nat; [|done].
  unfold processWriteQueue. by destruct (queue _ _).
Qed.

Lemma settle_cache i ok s : cache (settle i ok s) = cache s.
Proof.
  unfold settle. destruct (inflight s !! i) as [w|]; [|done].
  unfold processWriteQueue_next. destruct (0 <? _)%nat; simpl;
    rewrite resume_cache; by destruct ok.
Qed.

Lemma immediate_cache s : cache (immediate s) = cache s.
Proof.
  unfold immediate. destruct (immediates s); [done|].
  unfold processWriteQueue. by destruct (queue _ _).
Qed.

(** The cache after a step: only an accepted request changes it, and only
    the collection of its type. *)
Lemma step_cache validators readonlyProperties s ev :
  cache (step validators readonlyProperties s ev) =
  match phase_of s, ev with
  | Listening, EvRequest rid now r =>
      match handler validators readonlyProperties rid now r
              (collection s (request_type r)) with
      | Some (Saved items _) => <[request_type r := items]> (cache s)
      | _ => cache s
      end
  | _, _ => cache s
  end.
Proof.
  unfold step. destruct (phase_of s), ev; try done;
    rewrite ?settle_cache, ?immediate_cache; try done.
  unfold handle. destruct (handler _ _ _ _ _ _) as [[resp|items k]|]; try done.
  by rewrite saveData_cache.
Qed.

Lemma step_collection validators readonlyProperties s ev type :
  collection (step validators readonlyProperties s ev) type =
  match phase_of s, ev with
  | Listening, EvRequest rid now r =>
      match handler validators readonlyProperties rid now r
              (collection s (request_type r)) with
      | Some (Saved items _) =>
          if decide (request_type r = type) then items else collection s type
      | _ => collection s type
      end
  | _, _ => collection s type
  end.
Proof.
  unfold collection at 1. rewrite step_cache.
  destruct (phase_of s), ev; try done.
  destruct (handler _ _ _ _ _ _) as [[resp|items k]|]; try done.
  rewrite lookup_insert. by case_decide.
Qed.

(** C4 as stated fails: the record made of a body that carries the id 7 is
    stored and returned without any id. *)
Lemma created_record_has_no_id :
  let s := Game.run Game.started [Game.post_half_life; EvSettle 0 true] in
  obj_get "id" Game.half_life = Some (JNum 7) ∧
  collection s "game" = [Game.stored "t1" Game.half_life] ∧
  responses s =
    [(1, Response 201
           (PItem "game" (Some (Game.stored "t1" Game.half_life))))] ∧
  obj_get "id" (Game.stored "t1" Game.half_life) = None.
Proof. vm_compute. done. Qed.

(** A body that passes the validator, has a truthy slug and whose slug no
    record of the collection has, is accepted. *)
Lemma post_accepts type issues rid now o items :
  issues o = [] →
  truthy (obj_get "slug" o) = true →
  ¬ Exists (has_slug (obj_get "slug" o)) items →
  post type issues rid now (BObj o) items =
  Saved (items ++ [obj_set "updatedAt" (JStr now)
                     (obj_set "createdAt" (JStr now) (obj_delete "id" o))])
    (KPost rid type
       (obj_set "updatedAt" (JStr now)
          (obj_set "createdAt" (JStr now) (obj_delete "id" o)))).
Proof.
  intros Hvalid Hslug Hfree. unfold post. simpl. rewrite Hvalid.
  rewrite obj_get_delete. simpl. rewrite Hslug. simpl.
  by rewrite bool_decide_eq_false_2.
Qed.

(** C4, amended: for every valid create (the body passes the validator,
    its slug is truthy and no record of the type has that slug), the
    record that is stored at the end of the collection and returned with
    status 201 is the body without any id (the id of the client is removed
    and the server assigns none), with both timestamps set to the time of
    the creation; it keeps the slug of the body, which no other record of
    its type has. *)
Theorem create_stores_record_with_unique_slug validators readonlyProperties
    s type issues rid now o :
  phase_of s = Listening →
  obj_get type validators = Some issues →
  issues o = [] →
  truthy (obj_get "slug" o) = true →
  ¬ Exists (has_slug (obj_get "slug" o)) (collection s type) →
  ∃ newItem,
    handler validators readonlyProperties rid now (Post type (BObj o))
      (collection s type)
    = Some (Saved (collection s type ++ [newItem])
              (KPost rid type newItem)) ∧
    collection (step validators readonlyProperties s
                  (EvRequest rid now (Post type (BObj o)))) type
    = collection s type ++ [newItem] ∧
    (∀ s', responses (resume (KPost rid type newItem) s')
           = responses s'
             ++ [(rid, Response 201 (PItem type (Some newItem)))]) ∧
    obj_get "id" newItem = None ∧
    obj_get "createdAt" newItem = Some (JStr now) ∧
    obj_get "updatedAt" newItem = Some (JStr now) ∧
    obj_get "slug" newItem = obj_get "slug" o ∧
    Forall (λ other, strict_eq (obj_get "slug" other)
                       (obj_get "slug" newItem) = false)
      (collection s type).
Proof.
  intros Hphase Hv Hvalid Hslug Hfree.
  assert (handler validators readonlyProperties rid now (Post type (BObj o))
            (collection s type)
          = Some (post type issues rid now (BObj o) (collection s type)))
    as Hh.
  { unfold handler. simpl. by rewrite Hv. }
  rewrite step_collection, Hphase. cbn [request_type]. rewrite Hh.
  rewrite (post_accepts type issues rid now o) by done.
  rewrite decide_True by done.
  eexists. split_and!; try done.
  - by rewrite obj_get_set, decide_False, obj_get_set, decide_False,
      obj_get_delete, decide_True.
  - by rewrite obj_get_set, decide_False, obj_get_set, decide_True.
  - by rewrite obj_get_set, decide_True.
  - by rewrite obj_get_set, decide_False, obj_get_set, decide_False,
      obj_get_delete, decide_False.
  - apply Forall_forall. intros other Hin.
    rewrite obj_get_set, decide_False, obj_get_set, decide_False,
      obj_get_delete, decide_False by done.
    destruct (strict_eq _ _) eqn:Heq; [|done].
    exfalso. apply Hfree, Exists_exists. by exists other.
Qed.

(** The server on blank files is sent a body with the id 7. *)
Lemma create_stores_record_with_unique_slug_witness :
  ∃ newItem,
    collection (Game.step Game.started Game.post_half_life) "game"
      = collection Game.started "game" ++ [newItem] ∧
    obj_get "id" newItem = None ∧
    obj_get "slug" newItem = Some (JStr "half-life-2").
Proof.
  destruct (create_stores_record_with_unique_slug Schema.validators
              Schema.readonlyProperties Game.started "game"
              (object_issues GameSchema) 1 "t1" Game.half_life)
    as (newItem & _ & Hc & _ & Hid & _ & _ & Hslug & _).
  - reflexivity.
  - reflexivity.
  - vm_compute. reflexivity.
  - reflexivity.
  - vm_compute. intros H. inversion H.
  - exists newItem. split_and!; [exact Hc|exact Hid|exact Hslug].
Defined.

(** [updatedFields] has the properties of the body, the four fields of the
    server apart. *)
Lemma obj_get_updatedFields key b :
  obj_get key (updatedFields b) =
  if bool_decide (key ∈ ["slug"; "id"; "createdAt"; "updatedAt"])
  then None else obj_get key (body_props b).
Proof.
  unfold updatedFields. rewrite !obj_get_delete, obj_get_assign; simpl.
  case_bool_decide as Hin.
  - repeat case_decide; try done. exfalso.
    rewrite !elem_of_cons in Hin. set_solver.
  - rewrite !elem_of_cons in Hin. repeat case_decide; subst; try tauto.
    by destruct (obj_get key (body_props b)).
Qed.

(** The record an update stores, property by property. *)
Lemma obj_get_updated key oldItem b now :
  obj_get key (updated oldItem b now) =
  if decide (key = "updatedAt") then Some (JStr now)
  else match obj_get key (updatedFields b) with
       | Some v => Some v
       | None => obj_get key oldItem
       end.
Proof.
  unfold updated. rewrite obj_get_set. case_decide; [done|].
  rewrite !obj_get_assign; simpl.
  destruct (obj_get key (updatedFields b)); [done|].
  by destruct (obj_get key oldItem).
Qed.

(** C6: a successful update by slug replaces the record found under the
    slug by a record in which the fields of the body win, except slug, id,
    createdAt and updatedAt, which the body cannot set: slug, id and
    createdAt keep the value of the old record, updatedAt is the time of
    the update, and every field the body does not name keeps its value.
    The other records of the collection and the other collections are
    unchanged. *)
Theorem update_merges_partial_fields validators readonlyProperties s type
    rid now itemSlug b items k :
  phase_of s = Listening →
  handler validators readonlyProperties rid now (Put type itemSlug b)
    (collection s type) = Some (Saved items k) →
  let s' := step validators readonlyProperties s
              (EvRequest rid now (Put type itemSlug b)) in
  ∃ itemIndex oldItem newItem,
    list_find (has_slug (Some (JStr itemSlug))) (collection s type)
      = Some (itemIndex, oldItem) ∧
    collection s' type = <[itemIndex := newItem]> (collection s type) ∧
    collection s' type !! itemIndex = Some newItem ∧
    (∀ key v, key ∉ ["slug"; "id"; "createdAt"; "updatedAt"] →
       obj_get key (body_props b) = Some v → obj_get key newItem = Some v) ∧
    (∀ key, key ∈ ["slug"; "id"; "createdAt"] →
       obj_get key newItem = obj_get key oldItem) ∧
    obj_get "updatedAt" newItem = Some (JStr now) ∧
    (∀ key, key ≠ "updatedAt" → obj_get key (body_props b) = None →
       obj_get key newItem = obj_get key oldItem) ∧
    (∀ j, j ≠ itemIndex →
       collection s' type !! j = collection s type !! j) ∧
    length (collection s' type) = length (collection s type) ∧
    (∀ type', type' ≠ type → collection s' type' = collection s type').
Proof.
  intros Hphase Hh s'.
  assert (∀ type', collection s' type' =
            if decide (type = type') then items else collection s type')
    as Hcoll.
  { intros type'. unfold s'. rewrite step_collection, Hphase.
    cbn [request_type]. by rewrite Hh. }
  unfold handler in Hh; simpl in Hh.
  destruct (obj_get type validators) as [issues|]; [|done].
  injection Hh as Hh. apply put_saved in Hh as (i&old&Hfind&_&->&_).
  pose proof Hfind as (Hi&_&_)%list_find_Some.
  exists i, old, (updated old b now).
  rewrite !Hcoll, decide_True by done.
  split_and!; try done.
  - apply list_lookup_insert_eq. by eapply lookup_lt_Some.
  - intros key v Hkey Hb. rewrite obj_get_updated, obj_get_updatedFields.
    rewrite bool_decide_eq_false_2 by done. rewrite Hb.
    case_decide as Hk; [|done]. subst. exfalso. apply Hkey. set_solver.
  - intros key Hkey. rewrite obj_get_updated, obj_get_updatedFields.
    rewrite decide_False by set_solver.
    rewrite bool_decide_eq_true_2 by set_solver. done.
  - by rewrite obj_get_updated, decide_True.
  - intros key Hkey Hb. rewrite obj_get_updated, obj_get_updatedFields.
    rewrite decide_False by done. rewrite Hb. by case_bool_decide.
  - intros j Hj. by apply list_lookup_insert_ne.
  - apply length_insert.
  - intros type' Hne. rewrite Hcoll. by rewrite decide_False.
Qed.

Lemma update_merges_partial_fields_witness :
  let s := Game.step Game.started Game.post_half_life in
  let b := BObj [("price", JStr "1.99"); ("slug", JStr "hl2"); ("id", JNum 3)] in
  ∃ newItem,
    collection (Game.step s (EvRequest 2 "t2" (Put "game" "half-life-2" b)))
      "game" !! 0 = Some newItem ∧
    obj_get "price" newItem = Some (JStr "1.99") ∧
    obj_get "slug" newItem = Some (JStr "half-life-2") ∧
    obj_get "updatedAt" newItem = Some (JStr "t2") ∧
    obj_get "title" newItem = Some (JStr "Half-Life 2").
Proof.
  intros s b.
  destruct (update_merges_partial_fields Schema.validators
              Schema.readonlyProperties s "game" 2 "t2" "half-life-2" b
              [updated (Game.stored "t1" Game.half_life) b "t2"]
              (KPut 2 "game" 0))
    as (i & old & newItem & Hfind & _ & Hnew & Hwin & Hkeep & Hupd & Hrest & _).
  - reflexivity.
  - vm_compute. reflexivity.
  - vm_compute in Hfind. injection Hfind as <- <-.
    exists newItem. split_and!.
    + exact Hnew.
    + apply Hwin; [|reflexivity]. vm_compute. intros H.
      repeat (apply elem_of_cons in H as [H|H]; [discriminate H|]).
      by apply elem_of_nil in H.
    + rewrite Hkeep by (apply elem_of_cons; by left). reflexivity.
    + exact Hupd.
    + rewrite Hrest; done.
Defined.

(** ** Records without an id *)

Lemma handler_keeps_no_id validators readonlyProperties rid now r items
    items' k :
  Forall no_id items →
  handler validators readonlyProperties rid now r items
    = Some (Saved items' k) →
  Forall no_id items'.
Proof.
  intros Hno. unfold handler.
  destruct (obj_get _ validators) as [issues|]; [|done].
  intros [= H]. destruct r; simpl in H.
  - apply post_saved in H as (o&_&_&_&_&->&_).
    apply Forall_app. split; [done|]. apply Forall_singleton. unfold no_id.
    by rewrite obj_get_set, decide_False, obj_get_set, decide_False,
      obj_get_delete, decide_True.
  - apply put_saved in H as (i&old&Hfind&_&->&_).
    apply list_find_Some in Hfind as (Hi&_&_).
    apply Forall_insert; [done|]. unfold no_id.
    rewrite obj_get_updated, obj_get_updatedFields.
    rewrite decide_False by done.
    rewrite bool_decide_eq_true_2 by set_solver.
    by eapply (Forall_lookup_1 no_id).
  - apply del_saved in H as (->&_&_). apply Forall_forall.
    intros p [_ Hp]%list_elem_of_filter. by eapply Forall_forall.
Qed.

Lemma step_keeps_no_id validators readonlyProperties s ev type :
  Forall no_id (collection s type) →
  Forall no_id (collection (step validators readonlyProperties s ev) type).
Proof.
  intros Hno. rewrite step_collection.
  destruct (phase_of s), ev; try done.
  destruct (handler _ _ _ _ _ _) as [[resp|items k]|] eqn:Hh; try done.
  case_decide as Ht; [|done]. subst. by eapply handler_keeps_no_id.
Qed.

Lemma run_keeps_no_id validators readonlyProperties evs s type :
  Forall no_id (collection s type) →
  Forall no_id (collection (run validators readonlyProperties s evs) type).
Proof.
  revert s. induction evs as [|ev evs IH]; intros s Hno; [done|].
  simpl. by apply IH, step_keeps_no_id.
Qed.

(** No record without an id is [id_is itemId], whatever [itemId]. *)
Lemma del_no_id type rid itemId items :
  Forall no_id items →
  del type rid itemId items =
  Reply (Response 404
           (PNotFound (type +:+ " with id '"
                       +:+ from_option pretty "NaN" itemId
                       +:+ "' not found."))).
Proof.
  intros Hno. unfold del.
  assert (filter (λ p, ¬ id_is itemId p) items = items) as ->.
  { induction Hno as [|p items Hp _ IH]; [done|].
    rewrite filter_cons, IH. rewrite decide_True; [done|].
    unfold id_is. unfold no_id in Hp. rewrite Hp. tauto. }
  by rewrite Nat.eqb_refl.
Qed.

(** C10: a create removes the id of the body and assigns none, and no
    update adds one; so in a collection that was empty, whatever the
    server went through since, no record has an id, and a delete by id,
    with any number or with [NaN], removes nothing and answers 404. *)
Theorem created_records_cannot_be_deleted validators readonlyProperties
    s0 evs type issues rid now itemId :
  obj_get type validators = Some issues →
  collection s0 type = [] →
  let s := run validators readonlyProperties s0 evs in
  Forall no_id (collection s type) ∧
  (phase_of s = Listening →
   step validators readonlyProperties s (EvRequest rid now (Delete type itemId))
   = respond rid
       (Response 404
          (PNotFound (type +:+ " with id '"
                      +:+ from_option pretty "NaN" itemId
                      +:+ "' not found."))) s).
Proof.
  intros Hv Hempty s.
  assert (Forall no_id (collection s type)) as Hno.
  { apply run_keeps_no_id. by rewrite Hempty. }
  split; [done|]. intros Hphase. unfold step. rewrite Hphase.
  unfold handle, handler; simpl. rewrite Hv.
  by rewrite del_no_id.
Qed.

(** The record created from a body with the id 7 is not deleted by a
    delete of the id 7. *)
Lemma created_records_cannot_be_deleted_witness :
  let s := Game.run Game.started [Game.post_half_life; EvSettle 0 true] in
  Forall no_id (collection s "game") ∧
  Game.step s (EvRequest 2 "t2" (Delete "game" (Some 7%Z)))
  = respond 2 (Response 404 (PNotFound "game with id '7' not found.")) s.
Proof.
  intros s.
  destruct (created_records_cannot_be_deleted Schema.validators
              Schema.readonlyProperties Game.started
              [Game.post_half_life; EvSettle 0 true] "game"
              (object_issues GameSchema) 2 "t2" (Some 7%Z))
    as [Hno Hdel].
  - reflexivity.
  - reflexivity.
  - split; [exact Hno|]. apply Hdel. reflexivity.
Defined.

(** ** Unique slugs *)

Lemma strict_eq_sym a b : strict_eq a b = strict_eq b a.
Proof.
  destruct a as [[]|], b as [[]|]; simpl; try done;
    apply bool_decide_ext; naive_solver.
Qed.

Lemma distinct_snoc l x :
  distinct l → Forall (λ y, strict_eq y x = false) l → distinct (l ++ [x]).
Proof.
  induction l as [|y l IH]; simpl; [done|].
  intros [Hy Hl] [Hyx Hlx]%Forall_cons. split; [|by apply IH].
  apply Forall_app. split; [done|]. by apply Forall_singleton.
Qed.

Lemma distinct_filter (P : obj → Prop) `{!∀ p, Decision (P p)} items :
  distinct (slugs items) → distinct (slugs (filter P items)).
Proof.
  unfold slugs. induction items as [|p items IH]; simpl; [done|].
  intros [Hp Hl]. rewrite filter_cons. case_decide; simpl; [|by apply IH].
  split; [|by apply IH].
  apply Forall_forall. intros y (q&->&[_ Hq]%list_elem_of_filter)%list_elem_of_fmap.
  eapply (proj1 (Forall_forall _ _) Hp), list_elem_of_fmap. eauto.
Qed.

Lemma handler_keeps_distinct validators readonlyProperties rid now r items
    items' k :
  distinct (slugs items) →
  handler validators readonlyProperties rid now r items
    = Some (Saved items' k) →
  distinct (slugs items').
Proof.
  intros Hd. unfold handler.
  destruct (obj_get _ validators) as [issues|]; [|done].
  intros [= H]. destruct r; simpl in H.
  - apply post_saved in H as (o&_&_&_&Hex&->&_).
    unfold slugs. rewrite fmap_app. apply distinct_snoc; [done|].
    apply Forall_fmap, Forall_forall. intros other Hin. simpl.
    destruct (strict_eq _ _) eqn:Heq; [|done].
    exfalso. apply Hex, Exists_exists. by exists other.
  - apply put_saved in H as (i&old&Hfind&_&->&_).
    apply list_find_Some in Hfind as (Hi&_&_).
    unfold slugs. rewrite list_fmap_insert.
    rewrite list_insert_id; [done|].
    rewrite list_lookup_fmap, Hi; simpl. f_equal.
    rewrite obj_get_updated, obj_get_updatedFields.
    rewrite decide_False by done.
    by rewrite bool_decide_eq_true_2 by set_solver.
  - apply del_saved in H as (->&_&_). by apply distinct_filter.
Qed.

Lemma step_keeps_unique_slugs validators readonlyProperties s ev :
  unique_slugs s → unique_slugs (step validators readonlyProperties s ev).
Proof.
  intros Hu type. rewrite step_collection.
  destruct (phase_of s), ev; try apply Hu.
  destruct (handler _ _ _ _ _ _) as [[resp|items k]|] eqn:Hh; try apply Hu.
  case_decide as Ht; [|apply Hu]. subst.
  eapply handler_keeps_distinct; [apply Hu|done].
Qed.

Lemma run_keeps_unique_slugs validators readonlyProperties evs s :
  unique_slugs s → unique_slugs (run validators readonlyProperties s evs).
Proof.
  revert s. induction evs as [|ev evs IH]; intros s Hu; [done|].
  simpl. by apply IH, step_keeps_unique_slugs.
Qed.

(** *** The collections after startup *)

Lemma init_collection validators type : collection (init validators) type = [].
Proof.
  unfold collection, init; simpl.
  destruct (list_to_map _ !! type) as [q|] eqn:Hq; [|done]. simpl.
  apply elem_of_list_to_map_2, list_elem_of_fmap in Hq as (?&[= _ ->]&_).
  done.
Qed.

Lemma parse_and_validate_ok type issues loadedData items' :
  parse_and_validate type issues loadedData = Ok items' →
  ∃ items, loadedData = JArr items ∧ items' = records items
           ∧ invalidItems issues 0 items = Ok [].
Proof.
  destruct loadedData as [| | | |items|]; simpl; try done.
  destruct (invalidItems issues 0 items) as [[|bad invalid]|] eqn:Hinv; simpl;
    [|by destruct (validation_report _ _)|done].
  intros [= <-]. eauto.
Qed.

Lemma loadData_as_loaded validators views type issues s s' :
  (type, issues) ∈ validators →
  as_loaded validators views s →
  loadData type issues (views type) s = Ok s' →
  as_loaded validators views s'.
Proof.
  intros Hin Ha Hl type'. unfold loadData in Hl.
  destruct (views type) as [| |msg|loadedData|msg] eqn:Hview; [| | | |done].
  - injection Hl as <-. unfold collection. rewrite saveData_cache.
    assert (cache (start_loading type (set_cache type [] s))
            = <[type := []]> (cache s)) as ->.
    { unfold start_loading; simpl. by destruct (phase_of s). }
    rewrite lookup_insert. case_decide; [by left|apply Ha].
  - injection Hl as <-. rewrite collection_set_cache.
    case_decide; [by left|apply Ha].
  - done.
  - destruct (parse_and_validate _ _ _) as [items'|] eqn:Hp; [|done].
    injection Hl as <-. rewrite collection_set_cache.
    case_decide as Ht; [|apply Ha]. subst type'.
    apply parse_and_validate_ok in Hp as (items&->&->&Hinv). right.
    by exists items, issues.
Qed.

Lemma load_all_as_loaded validators views types s s' :
  types ⊆ validators →
  as_loaded validators views s →
  load_all views types s = Ok s' →
  as_loaded validators views s'.
Proof.
  revert s. induction types as [|[type issues] types IH]; intros s Hsub Ha;
    simpl.
  - by intros [= <-].
  - destruct (loadData _ _ _ _) as [s1|] eqn:Hl; simpl; [|done].
    apply IH; [set_solver|]. eapply loadData_as_loaded; [|done..].
    set_solver.
Qed.

Lemma boot_as_loaded validators views :
  as_loaded validators views (boot validators views).
Proof.
  assert (as_loaded validators views (init validators)) as Hinit.
  { intros type. left. apply init_collection. }
  unfold boot. destruct (load_all _ _ _) as [s|] eqn:Hl.
  - pose proof (load_all_as_loaded _ _ _ _ _ (reflexivity _) Hinit Hl) as Ha.
    destruct (phase_of s) as [[|]| |]; done.
  - done.
Qed.

(** C8 as stated fails: the loader caches a file in which two records have
    the same slug, and the server listens with both. *)
Lemma loader_keeps_duplicate_slugs :
  let s := boot Schema.validators Game.duplicate_files in
  phase_of s = Listening ∧
  collection s "game" = [Game.portal; Game.portal] ∧
  strict_eq (obj_get "slug" Game.portal) (obj_get "slug" Game.portal) = true ∧
  ¬ unique_slugs s.
Proof.
  split_and!; try (vm_compute; reflexivity).
  intros Hu. specialize (Hu "game"). vm_compute in Hu.
  destruct Hu as [Hu _]. by apply Forall_cons in Hu as [? _].
Qed.

(** C8, amended: create, update by slug and delete by id keep the slugs of
    every collection unique; the loader caches the records of a file as
    they are, so the slugs are unique in every state of the server when
    they are unique in each file it loaded. *)
Theorem unique_slugs_from_unique_files validators readonlyProperties views s :
  (∀ type items, views type = Parsed (JArr items) →
                 distinct (slugs (records items))) →
  reachable validators readonlyProperties views s →
  unique_slugs s.
Proof.
  intros Hfiles [evs ->]. apply run_keeps_unique_slugs. intros type.
  destruct (boot_as_loaded validators views type)
    as [->|(items&issues&_&Hv&_&->)]; [done|by eapply Hfiles].
Qed.

Lemma unique_slugs_from_unique_files_witness :
  unique_slugs
    (Game.run (boot Schema.validators Game.two_games_files)
       [EvRequest 1 "t1" (Put "game" "portal" (BObj [("slug", JStr "half-life-2")]))])
  ∧ distinct (slugs (records [JObj Game.half_life; JObj Game.portal])).
Proof.
  assert (distinct (slugs (records [JObj Game.half_life; JObj Game.portal])))
    as Hd.
  { simpl. repeat split; repeat constructor. }
  split; [|exact Hd].
  apply (unique_slugs_from_unique_files Schema.validators
           Schema.readonlyProperties Game.two_games_files).
  - intros type items [= <-]. exact Hd.
  - eexists. reflexivity.
Defined.

(** ** What a persistence task writes *)

(** A task that finds its queue empty and whose file write succeeds
    leaves in the file the text of the collection as [saveData] found
    it. *)
Lemma persist_writes_snapshot type k s :
  queue s type = [] →
  files (settle (length (inflight s)) true (saveData type k s)) !! type
  = Some (snapshot s type).
Proof.
  intros Hq. rewrite saveData_idle by done. unfold settle; simpl.
  rewrite lookup_app_r, Nat.sub_diag by done; simpl.
  unfold processWriteQueue_next. destruct (0 <? _)%nat; simpl;
    rewrite resume_files; simpl; by rewrite lookup_insert_eq.
Qed.

(** C9: two persistence tasks of a type that run on the same collection
    leave the same text in the file. *)
Theorem persist_same_cache_same_bytes s s' type k k' :
  queue s type = [] →
  queue s' type = [] →
  collection s' type = collection s type →
  files (settle (length (inflight s)) true (saveData type k s)) !! type
  = Some (JSON_stringify (JArr (JObj <$> collection s type))) ∧
  files (settle (length (inflight s')) true (saveData type k' s')) !! type
  = files (settle (length (inflight s)) true (saveData type k s)) !! type.
Proof.
  intros Hq Hq' Hc. rewrite !persist_writes_snapshot by done.
  unfold snapshot. by rewrite Hc.
Qed.

(** The collection of the server is persisted twice in a row. *)
Lemma persist_same_cache_same_bytes_witness :
  let s := Game.run Game.started [Game.post_half_life; EvSettle 0 true] in
  let s' := settle (length (inflight s)) true (saveData "game" (KDelete 2) s) in
  files s' !! "game"
  = Some (JSON_stringify (JArr [JObj (Game.stored "t1" Game.half_life)])) ∧
  files (settle (length (inflight s')) true (saveData "game" (KDelete 3) s'))
    !! "game"
  = files s' !! "game".
Proof.
  intros s s'.
  apply (persist_same_cache_same_bytes s s' "game" (KDelete 2) (KDelete 3));
    vm_compute; reflexivity.
Defined.

(** ** Records that pass an object schema *)

Lemma flat_map_nil {A B} (f : A → list B) l :
  flat_map f l = [] ↔ Forall (λ x, f x = []) l.
Proof.
  induction l as [|x l IH]; simpl; [by split|].
  rewrite Forall_cons, <- IH. split.
  - by intros [? ?]%app_eq_nil.
  - intros [-> ->]. done.
Qed.

Lemma check_strict_nil shape o :
  check_strict shape o = [] ↔ Forall (λ k, k ∈ map f_name shape) (obj_keys o).
Proof.
  unfold check_strict. generalize (obj_keys o) as keys.
  induction keys as [|k keys IH]; simpl; [by split|].
  rewrite filter_cons, Forall_cons. case_decide as Hk.
  - split; [done|]. intros [Hin _]. done.
  - rewrite <- IH.
    destruct (filter _ keys); split; try done; by intros [_ ?].
Qed.

(** A record passes when each field of the shape accepts what the record
    has under its name and the record has no other key. *)
Lemma object_issues_nil shape o :
  object_issues shape o = [] ↔
  Forall (λ f, check_value f (obj_get (f_name f) o) = []) shape ∧
  Forall (λ k, k ∈ map f_name shape) (obj_keys o).
Proof.
  unfold object_issues. rewrite <- check_strict_nil.
  rewrite <- (flat_map_nil (λ f, check_field f o)).
  split; [by intros [? ?]%app_eq_nil|by intros [-> ->]].
Qed.

(** Passing depends on what the properties read as, not on their order. *)
Lemma object_issues_ext shape o o' :
  (∀ k, obj_get k o = obj_get k o') →
  object_issues shape o = [] → object_issues shape o' = [].
Proof.
  intros Hext. rewrite !object_issues_nil. intros [Hf Hk]. split.
  - eapply Forall_impl; [exact Hf|]. intros f. simpl. by rewrite Hext.
  - apply Forall_forall. intros k Hin.
    eapply (proj1 (Forall_forall _ _) Hk).
    apply obj_get_keys. rewrite Hext. by apply obj_get_keys.
Qed.

Lemma object_issues_set shape k v o :
  k ∈ map f_name shape →
  Forall (λ f, f_name f = k → check_value f (Some v) = []) shape →
  object_issues shape o = [] → object_issues shape (obj_set k v o) = [].
Proof.
  intros Hin Hv. rewrite !object_issues_nil. intros [Hf Hk]. split.
  - apply Forall_forall. intros f Hfin. rewrite obj_get_set.
    case_decide as Hname.
    + by eapply (proj1 (Forall_forall _ _) Hv).
    + by eapply (proj1 (Forall_forall _ _) Hf).
  - apply Forall_forall. intros k' Hk'.
    apply obj_get_keys in Hk'. rewrite obj_get_set in Hk'.
    case_decide; [by subst|].
    eapply (proj1 (Forall_forall _ _) Hk). by apply obj_get_keys.
Qed.

Lemma object_issues_delete shape k o :
  Forall (λ f, f_name f = k → check_value f None = []) shape →
  object_issues shape o = [] → object_issues shape (obj_delete k o) = [].
Proof.
  intros Hv. rewrite !object_issues_nil. intros [Hf Hk]. split.
  - apply Forall_forall. intros f Hfin. rewrite obj_get_delete.
    case_decide as Hname.
    + by eapply (proj1 (Forall_forall _ _) Hv).
    + by eapply (proj1 (Forall_forall _ _) Hf).
  - apply Forall_forall. intros k' [_ Hk']%obj_keys_delete.
    by eapply (proj1 (Forall_forall _ _) Hk).
Qed.

(** [GameSchema] lets the server manage id, createdAt and updatedAt. *)
Lemma game_delete_id o :
  object_issues GameSchema o = [] →
  object_issues GameSchema (obj_delete "id" o) = [].
Proof.
  apply object_issues_delete.
  repeat (constructor; [by intros ?|]). constructor.
Qed.

Lemma game_set_timestamp key now o :
  key ∈ ["createdAt"; "updatedAt"] →
  object_issues GameSchema o = [] →
  object_issues GameSchema (obj_set key (JStr now) o) = [].
Proof.
  intros Hkey. apply object_issues_set.
  - simpl. set_solver.
  - apply elem_of_cons in Hkey as [->|Hkey];
      [|apply elem_of_cons in Hkey as [->|Hkey]; [|by apply elem_of_nil in Hkey]];
      repeat (constructor; [by intros ?|]); constructor.
Qed.

(** ** The records of the cache pass the validator *)

Lemma invalidItems_nil issues i items :
  invalidItems issues i items = Ok [] →
  Forall (λ item, object_validator issues item = Valid) items.
Proof.
  revert i. induction items as [|item items IH]; intros i; simpl; [done|].
  destruct (object_validator issues item) eqn:Hv.
  - intros H. constructor; [done|by eapply IH].
  - destruct (item_id item); simpl; [|done].
    by destruct (invalidItems issues (S i) items).
Qed.

Lemma records_valid issues items :
  Forall (λ item, object_validator issues item = Valid) items →
  Forall (λ p, issues p = []) (records items).
Proof.
  unfold records. induction 1 as [|item items Hv _ IH]; simpl; [done|].
  apply object_validator_valid in Hv as (o&->&Ho). by constructor.
Qed.

Lemma boot_game_valid views : game_valid (boot Schema.validators views).
Proof.
  unfold game_valid.
  destruct (boot_as_loaded Schema.validators views "game")
    as [->|(items&issues&Hin&_&Hinv&->)]; [done|].
  apply list_elem_of_singleton in Hin as [= <-].
  by apply invalidItems_nil, records_valid in Hinv.
Qed.

(** [fieldsToValidate] has the properties of [updatedFields], the one
    named [__proto__] apart. *)
Lemma fieldsToValidate_filter b :
  fieldsToValidate b =
  fold_left (λ acc k0, match obj_get k0 (updatedFields b) with
                       | Some v => obj_set k0 v acc
                       | None => acc
                       end)
    (filter (λ key, key ≠ "__proto__") (obj_keys (updatedFields b))) [].
Proof.
  unfold fieldsToValidate. generalize ([] : obj).
  induction (obj_keys (updatedFields b)) as [|k ks IH]; intros t; simpl;
    [done|].
  rewrite filter_cons. destruct (decide (k = "__proto__")) as [Hk|Hk].
  - rewrite decide_False by (by intros Hn). apply IH.
  - rewrite decide_True by done. simpl. apply IH.
Qed.

Lemma obj_get_fieldsToValidate key b :
  obj_get key (fieldsToValidate b) =
  if decide (key = "__proto__") then None else obj_get key (updatedFields b).
Proof.
  rewrite fieldsToValidate_filter, obj_get_assign_keys. simpl.
  destruct (decide (key ∈ filter _ _)) as [Hin|Hnin].
  - apply list_elem_of_filter in Hin as [Hne _].
    rewrite decide_False by done.
    by destruct (obj_get key (updatedFields b)).
  - case_decide as Hkey; [done|].
    destruct (obj_get key (updatedFields b)) eqn:Hget; [|done].
    exfalso. apply Hnin, list_elem_of_filter. split; [done|].
    apply obj_get_keys. by rewrite Hget.
Qed.

Lemma fieldsToValidate_empty b key :
  obj_keys (fieldsToValidate b) = [] →
  key ≠ "__proto__" →
  obj_get key (updatedFields b) = None.
Proof.
  intros Hk Hne. pose proof (obj_get_fieldsToValidate key b) as Hget.
  destruct (fieldsToValidate b); [|done]. simpl in Hget.
  by rewrite decide_False in Hget.
Qed.

(** The object the validator sees reads as the stored record with the
    fields of the body, [__proto__] and the server's fields apart. *)
Lemma obj_get_merged key oldItem b :
  obj_get key (merged oldItem b) =
  if decide (key = "__proto__") then obj_get key oldItem
  else match obj_get key (updatedFields b) with
       | Some v => Some v
       | None => obj_get key oldItem
       end.
Proof.
  unfold merged. rewrite !obj_get_assign, obj_get_fieldsToValidate; simpl.
  case_decide.
  - by destruct (obj_get key oldItem).
  - destruct (obj_get key (updatedFields b)); [done|].
    by destruct (obj_get key oldItem).
Qed.

Lemma merged_empty key oldItem b :
  obj_keys (fieldsToValidate b) = [] →
  obj_get key (merged oldItem b) = obj_get key oldItem.
Proof.
  intros Hk. rewrite obj_get_merged. case_decide; [done|].
  by rewrite fieldsToValidate_empty.
Qed.

Lemma no_proto_updatedFields b :
  no_proto_key b → obj_get "__proto__" (updatedFields b) = None.
Proof. intros Hb. by rewrite obj_get_updatedFields. Qed.

Lemma put_saved_valid type issues ro rid now itemSlug b items items' k :
  put type issues ro rid now itemSlug b items = Saved items' k →
  ∃ itemIndex oldItem,
    items !! itemIndex = Some oldItem ∧
    (obj_keys (fieldsToValidate b) = []
     ∨ issues (merged oldItem b) = []) ∧
    items' = <[itemIndex := updated oldItem b now]> items.
Proof.
  unfold put. destruct (list_find _ _) as [[i old]|] eqn:Hfind; [|done].
  apply list_find_Some in Hfind as (Hi&_&_).
  destruct (readonlyAttemptsToUpdate ro b); [|done]. simpl.
  destruct (obj_keys (fieldsToValidate b)) eqn:Hkeys; simpl.
  - intros [= <- <-]. exists i, old. eauto.
  - destruct (issues (merged old b)) eqn:Hm; [|done].
    intros [= <- <-]. exists i, old. eauto.
Qed.

(** Without a [__proto__] property in the body, the record stored reads as
    the object validated, the time of the update apart. *)
Lemma game_updated_valid oldItem b now :
  no_proto_key b →
  object_issues GameSchema oldItem = [] →
  obj_keys (fieldsToValidate b) = []
  ∨ object_issues GameSchema (merged oldItem b) = [] →
  object_issues GameSchema (updated oldItem b now) = [].
Proof.
  intros Hb%no_proto_updatedFields Hold Hm. unfold updated.
  apply game_set_timestamp; [set_solver|].
  destruct Hm as [Hempty|Hm].
  - eapply object_issues_ext; [|exact Hold]. intros key.
    rewrite !obj_get_assign. simpl.
    destruct (decide (key = "__proto__")) as [->|Hkey].
    + rewrite Hb. by destruct (obj_get "__proto__" oldItem).
    + rewrite fieldsToValidate_empty by done.
      by destruct (obj_get key oldItem).
  - eapply object_issues_ext; [|exact Hm]. intros key.
    rewrite obj_get_merged, !obj_get_assign. simpl.
    case_decide as Hkey.
    + subst key. rewrite Hb. by destruct (obj_get "__proto__" oldItem).
    + destruct (obj_get key (updatedFields b)); [done|].
      by destruct (obj_get key oldItem).
Qed.

Lemma handler_keeps_game_valid readonlyProperties rid now r items items' k :
  request_type r = "game" →
  no_proto_update (EvRequest rid now r) →
  Forall (λ p, object_issues GameSchema p = []) items →
  handler Schema.validators readonlyProperties rid now r items
    = Some (Saved items' k) →
  Forall (λ p, object_issues GameSchema p = []) items'.
Proof.
  intros Ht Hb Hvalid. unfold handler. rewrite Ht. simpl.
  intros [= H]. destruct r; simpl in H.
  - apply post_saved in H as (o&_&Ho&_&_&->&_).
    apply Forall_app. split; [done|]. apply Forall_singleton.
    apply game_set_timestamp; [set_solver|].
    apply game_set_timestamp; [set_solver|].
    by apply game_delete_id.
  - apply put_saved_valid in H as (i&old&Hi&Hm&->).
    apply Forall_insert; [done|].
    apply game_updated_valid; [done| |done].
    by eapply (Forall_lookup_1 _ _ _ _ Hvalid).
  - apply del_saved in H as (->&_&_). apply Forall_forall.
    intros p [_ Hp]%list_elem_of_filter.
    by apply (proj1 (Forall_forall _ _) Hvalid).
Qed.

Lemma step_keeps_game_valid readonlyProperties s ev :
  no_proto_update ev →
  game_valid s →
  game_valid (step Schema.validators readonlyProperties s ev).
Proof.
  unfold game_valid. intros Hb Hvalid. rewrite step_collection.
  destruct (phase_of s), ev; try done.
  destruct (handler _ _ _ _ _ _) as [[resp|items k]|] eqn:Hh; try done.
  case_decide as Ht; [|done].
  eapply handler_keeps_game_valid; [done|exact Hb| |done]. by rewrite Ht.
Qed.

(** The loader, the create and, for a body without a [__proto__] property,
    the update let no record in that the validator refuses. *)
Lemma reachable_game_valid readonlyProperties views s :
  reachable_no_proto Schema.validators readonlyProperties views s →
  game_valid s.
Proof.
  intros (evs & Hevs & ->). generalize (boot_game_valid views).
  generalize (boot Schema.validators views) as s.
  induction Hevs as [|ev evs Hev _ IH]; intros s Hvalid; [done|].
  simpl. by apply IH, step_keeps_game_valid.
Qed.

Lemma readonlyAttempts_touches typeReadonlyProps b :
  readonlyAttemptsToUpdate typeReadonlyProps b ≠ []
  ↔ touches_readonly typeReadonlyProps b.
Proof.
  assert (∀ key, key ∈ readonlyAttemptsToUpdate typeReadonlyProps b ↔
                 key ∈ obj_keys (body_props b)
                 ∧ (key ∉ ["slug"; "id"; "createdAt"; "updatedAt"])
                 ∧ key ∈ typeReadonlyProps) as Hspec.
  { intros key. unfold readonlyAttemptsToUpdate.
    rewrite list_elem_of_filter, !obj_get_keys, obj_get_updatedFields.
    case_bool_decide; [|naive_solver].
    split; [by intros [_ [? ?]]|naive_solver]. }
  split.
  - destruct (readonlyAttemptsToUpdate typeReadonlyProps b) as [|key l] eqn:Ha;
      [done|]. intros _. exists key. apply Hspec.
    apply elem_of_cons. by left.
  - intros (key&Hkey). apply Hspec in Hkey. intros Hnil.
    rewrite Hnil in Hkey. by apply elem_of_nil in Hkey.
Qed.

(** C5, on the code: an update whose body is [{"__proto__": 1}], on a
    stored record that passes the validator. The record merged with the
    fields of the body has a key the strict schema refuses; the handler
    copies the fields one by one before it validates, the assignment to
    [__proto__] defines no property, and with no field left the
    validation is skipped. The update is stored: the collection holds a
    record that [validateGame] refuses, the request is answered with
    status 200 and that record, the file receives it, and a restart on
    that file exits. *)
Theorem proto_key_escapes_validation :
  let s := Game.run Game.started [Game.post_half_life; EvSettle 0 true] in
  let oldItem := Game.stored "t1" Game.half_life in
  let b := BObj [("__proto__", JNum 1)] in
  let newItem := updated oldItem b "t2" in
  let unrecognized :=
    Invalid [VError "" "Unrecognized key(s) in object: '__proto__'"] in
  let s' := Game.run s [EvRequest 2 "t2" (Put "game" "half-life-2" b);
                        EvSettle 0 true] in
  collection s "game" = [oldItem] ∧
  validateGame (JObj oldItem) = Valid ∧
  validateGame (JObj (obj_assign (obj_assign [] oldItem) (updatedFields b)))
    = unrecognized ∧
  fieldsToValidate b = [] ∧
  collection s' "game" = [newItem] ∧
  obj_get "__proto__" newItem = Some (JNum 1) ∧
  validateGame (JObj newItem) = unrecognized ∧
  responses s' =
    [ (1, Response 201 (PItem "game" (Some oldItem)));
      (2, Response 200 (PItem "game" (Some newItem))) ] ∧
  files s' !! "game" = Some (JSON_stringify (JArr [JObj newItem])) ∧
  ∃ message,
    phase_of (boot Schema.validators (λ _, Parsed (JArr [JObj newItem])))
    = Exited message.
Proof.
  vm_compute. split_and!; try reflexivity. eexists. reflexivity.
Qed.

(** ** Updates that are refused *)

(** X23: an update by slug of a stored record whose body names a field
    that the type declares read-only and that an update may set, or for which
    the object handed to the validator fails it, is answered with status
    400 (the read-only fields, or the errors of the validator) and changes
    nothing else in the server: the record and its collection, the other
    collections, the queues and the files are as before. The read-only
    check comes first. This holds in every state reached while no update
    carried a [__proto__] property. *)
Theorem rejected_update_changes_nothing readonlyProperties views s rid now
    itemSlug b itemIndex oldItem :
  reachable_no_proto Schema.validators readonlyProperties views s →
  phase_of s = Listening →
  list_find (has_slug (Some (JStr itemSlug))) (collection s "game")
    = Some (itemIndex, oldItem) →
  touches_readonly (default [] (obj_get "game" readonlyProperties)) b
  ∨ validateGame (JObj (merged oldItem b)) ≠ Valid →
  ∃ sent,
    step Schema.validators readonlyProperties s
      (EvRequest rid now (Put "game" itemSlug b))
    = respond rid (Response 400 sent) s ∧
    cache (respond rid (Response 400 sent) s) = cache s ∧
    (touches_readonly (default [] (obj_get "game" readonlyProperties)) b →
     ∃ error, sent = PReadonly error) ∧
    (¬ touches_readonly (default [] (obj_get "game" readonlyProperties)) b →
     ∃ errors,
       validateGame (JObj (merged oldItem b)) = Invalid errors ∧
       sent = PInvalid "Dati game non validi" errors).
Proof.
  intros Hreach Hphase Hfind Hbad.
  apply reachable_game_valid in Hreach as Hvalid.
  pose proof Hfind as (Hi&_&_)%list_find_Some.
  pose proof (Forall_lookup_1 _ _ _ _ Hvalid Hi) as Hold. simpl in Hold.
  pose proof (readonlyAttempts_touches
                (default [] (obj_get "game" readonlyProperties)) b) as Ht.
  unfold step. rewrite Hphase. unfold handle, handler. simpl.
  unfold put. rewrite Hfind.
  destruct (readonlyAttemptsToUpdate _ b) as [|key attempts] eqn:Hro; simpl.
  - assert (¬ touches_readonly
                (default [] (obj_get "game" readonlyProperties)) b) as Hno.
    { intros Htouch. by apply Ht in Htouch. }
    destruct Hbad as [Hbad|Hbad]; [done|].
    destruct (obj_keys (fieldsToValidate b)) eqn:Hkeys; simpl.
    + exfalso. apply Hbad. apply object_validator_valid.
      eexists. split; [done|].
      eapply object_issues_ext; [|exact Hold]. intros key.
      by rewrite merged_empty.
    + unfold validateGame in Hbad. simpl in Hbad |- *.
      destruct (object_issues GameSchema (merged oldItem b)) as [|e errors];
        [done|].
      eexists. split_and!; [done..|]. intros _. by eexists.
  - eexists. split_and!; [reflexivity..| |].
    + intros _. by eexists.
    + intros Hno. exfalso. by apply Hno, Ht.
Qed.

(** A stored record, a table that protects the price, and two updates:
    one of the price, one that makes the title a number. *)
Lemma rejected_update_changes_nothing_witness :
  let s := Game.run Game.started [Game.post_half_life; EvSettle 0 true] in
  (∃ sent,
     Store.step Schema.validators Game.price_readonly s
       (EvRequest 2 "t2" (Put "game" "half-life-2"
                            (BObj [("price", JStr "0.99")])))
     = respond 2 (Response 400 sent) s) ∧
  (∃ sent,
     Game.step s
       (EvRequest 3 "t3" (Put "game" "half-life-2"
                            (BObj [("title", JNum 2)])))
     = respond 3 (Response 400 sent) s).
Proof.
  intros s. split.
  - destruct (rejected_update_changes_nothing Game.price_readonly
                Game.blank_files s 2 "t2" "half-life-2"
                (BObj [("price", JStr "0.99")]) 0
                (Game.stored "t1" Game.half_life))
      as (sent & Hstep & _).
    + exists [Game.post_half_life; EvSettle 0 true].
      split; [by repeat constructor|done].
    + reflexivity.
    + vm_compute. reflexivity.
    + left. exists "price". split_and!.
      * vm_compute. apply elem_of_cons. by left.
      * intros H.
        repeat (apply elem_of_cons in H as [H|H]; [discriminate H|]).
        by apply elem_of_nil in H.
      * vm_compute. apply elem_of_cons. by left.
    + by exists sent.
  - destruct (rejected_update_changes_nothing Schema.readonlyProperties
                Game.blank_files s 3 "t3" "half-life-2"
                (BObj [("title", JNum 2)]) 0
                (Game.stored "t1" Game.half_life))
      as (sent & Hstep & _).
    + exists [Game.post_half_life; EvSettle 0 true].
      split; [by repeat constructor|done].
    + reflexivity.
    + vm_compute. reflexivity.
    + right. vm_compute. discriminate.
    + by exists sent.
Defined.

(** ** The startup gate *)

Lemma loadData_refused type issues view s :
  refused issues view → ∃ message, loadData type issues view s = Throw message.
Proof.
  destruct view as [| |msg|loadedData|msg]; simpl; try done;
    [by eauto| |by eauto].
  intros Href.
  destruct (parse_and_validate type issues loadedData) as [items'|msg] eqn:Hp;
    [|by eauto].
  exfalso. apply parse_and_validate_ok in Hp as (items&->&_&Hinv).
  apply invalidItems_nil in Hinv.
  apply Exists_exists in Href as (item&Hin&Hbad).
  by apply Hbad, (proj1 (Forall_forall _ _) Hinv).
Qed.

Lemma load_all_refused views types type issues s :
  (type, issues) ∈ types →
  refused issues (views type) →
  ∃ message, load_all views types s = Throw message.
Proof.
  intros Hin Href. revert s.
  induction types as [|[type' issues'] types IH]; intros s;
    [by apply elem_of_nil in Hin|].
  simpl. destruct (loadData type' issues' (views type') s) as [s1|msg] eqn:Hl;
    simpl; [|by eauto].
  apply elem_of_cons in Hin as [[= <- <-]|Hin]; [|by apply IH].
  destruct (loadData_refused type issues (views type) s Href) as [msg Hmsg].
  congruence.
Qed.

(** One refused file is enough for the whole process to exit: the server
    listens for no type. *)
Lemma startup_exits_on_refused_file validators views type issues :
  (type, issues) ∈ validators →
  refused issues (views type) →
  ∃ message, phase_of (boot validators views) = Exited message.
Proof.
  intros Hin Href. unfold boot.
  destruct (load_all_refused views validators type issues (init validators)
              Hin Href) as [msg ->].
  by exists msg.
Qed.

(** When the validation loop runs to its end, it has an entry for every
    element that fails the validator, with its index and its errors. *)
Lemma invalidItems_complete issues i items invalid :
  invalidItems issues i items = Ok invalid →
  ∀ j item errors,
    items !! j = Some item →
    object_validator issues item = Invalid errors →
    ∃ id, InvalidItem (i + j) id errors ∈ invalid.
Proof.
  revert i invalid. induction items as [|item0 items IH];
    intros i invalid Hinv j item errors Hj Hbad; [done|].
  simpl in Hinv. destruct j as [|j]; simpl in Hj.
  - injection Hj as ->. rewrite Hbad in Hinv.
    destruct (item_id item) as [id|]; simpl in Hinv; [|done].
    destruct (invalidItems issues (S i) items); simpl in Hinv; [|done].
    injection Hinv as <-. exists id. rewrite Nat.add_0_r.
    apply elem_of_cons. by left.
  - replace (i + S j) with (S i + j) by lia.
    destruct (object_validator issues item0).
    + by eapply IH.
    + destruct (item_id item0); simpl in Hinv; [|done].
      destruct (invalidItems issues (S i) items) as [more|] eqn:Hmore;
        simpl in Hinv; [|done].
      injection Hinv as <-.
      destruct (IH _ _ Hmore j item errors Hj Hbad) as [id Hid].
      exists id. apply elem_of_cons. by right.
Qed.

(** When the grouping runs to its end, every reason is among the messages
    of its field. *)
Lemma group_errors_complete errors fieldErrors :
  group_errors errors = Ok fieldErrors →
  ∀ error, error ∈ errors →
    ∃ messages, obj_get (field error) fieldErrors = Some messages
                ∧ message error ∈ messages.
Proof.
  unfold group_errors.
  set (step := λ (acc : result (jsobj (list string))) (error : verror), _).
  assert (∀ errors, foldl step (Throw "fieldErrors[error.field].push is not a function") errors
                    = Throw "fieldErrors[error.field].push is not a function")
    as Hthrow.
  { intros l. induction l as [|e l IH]; [done|]. simpl. exact IH. }
  assert (∀ errors g0 g,
            foldl step (Ok g0) errors = Ok g →
            (∀ f msgs m, obj_get f g0 = Some msgs → m ∈ msgs →
               ∃ msgs', obj_get f g = Some msgs' ∧ m ∈ msgs') ∧
            (∀ error, error ∈ errors →
               ∃ msgs, obj_get (field error) g = Some msgs
                       ∧ message error ∈ msgs)) as Hgen.
  { clear errors fieldErrors. intros errors.
    induction errors as [|e errors IH]; intros g0 g Hfold; simpl in Hfold.
    - injection Hfold as <-. split; [by eauto|].
      by intros error ?%elem_of_nil.
    - case_bool_decide; [by rewrite Hthrow in Hfold|].
      apply IH in Hfold as [Hkeep Hall]. split.
      + intros f msgs m Hf Hm.
        destruct (decide (f = field e)) as [->|Hne].
        * eapply Hkeep; [by rewrite obj_get_set, decide_True|].
          rewrite Hf. simpl. apply elem_of_app. by left.
        * eapply Hkeep; [|done]. by rewrite obj_get_set, decide_False.
      + intros error [->|Hin]%elem_of_cons; [|by apply Hall].
        eapply Hkeep; [by rewrite obj_get_set, decide_True|].
        apply elem_of_app. right. by apply list_elem_of_singleton. }
  intros Hfold. by apply Hgen in Hfold as [_ Hall].
Qed.

(** The report of a file with three elements, two of which fail the
    validator: both are listed, each with its reasons by field. *)
Lemma report_lists_every_invalid_record :
  parse_and_validate "game" (object_issues GameSchema)
    (JArr [JObj Game.broken; JObj Game.portal; JNum 3])
  = Throw ("
⛔ Errori di validazione nel file game.json. Il server non può partire.

🚫 Elemento #1 (ID: 4) non valido:
   • title: Title is required
   • category: Category is required
   • releaseYear: Required
   • developer: Required
   • rating: Required
   • description: Required
   • price: Required
   • imagesExtra: Required
   • tags: Required

🚫 Elemento #3 (ID: sconosciuto) non valido:
   • Generale: Expected object, received number

Correggi questi errori nel file database/game.json per avviare il server.").
Proof. vm_compute. reflexivity. Qed.

(** C7, on the code: a file whose array has a [null] element. The record
    before it fails the validator, and so does [null]; reading the id of
    [null] throws, and the process exits with the message of that error:
    the report lists no element and no reason. *)
Theorem null_element_hides_the_report :
  object_validator (object_issues GameSchema) (JObj Game.broken)
  = Invalid (object_issues GameSchema Game.broken) ∧
  object_validator (object_issues GameSchema) JNull
  = Invalid [VError "" "Expected object, received null"] ∧
  invalidItems (object_issues GameSchema) 0 [JObj Game.broken; JNull]
  = Throw "Cannot read properties of null (reading 'id')" ∧
  phase_of (boot Schema.validators Game.null_element_files)
  = Exited ("Errore di sintassi JSON nel file game.json:
Cannot read properties of null (reading 'id')
Controlla la sintassi del file e assicurati che sia un JSON valido.").
Proof. vm_compute. done. Qed.

(** * Further properties of the code *)

(** ** The path of a type *)

Lemma endsWith_app a b c : endsWith b c = true → endsWith (a +:+ b) c = true.
Proof.
  intros Hb. induction a as [|ch a IH]; simpl; [done|].
  rewrite IH. apply orb_true_r.
Qed.

Lemma length_slice_0_minus1 s :
  String.length (slice_0_minus1 s) = pred (String.length s).
Proof.
  induction s as [|c s IH]; [done|].
  destruct s as [|c' s']; [done|].
  change (slice_0_minus1 (String c (String c' s')))
    with (String c (slice_0_minus1 (String c' s'))).
  change (String.length (String c (slice_0_minus1 (String c' s'))))
    with (S (String.length (slice_0_minus1 (String c' s')))).
  by rewrite IH.
Qed.

Lemma length_string_app a b :
  String.length (a +:+ b) = String.length a + String.length b.
Proof. induction a as [|c a IH]; simpl; [done|]. by rewrite IH. Qed.

Lemma endsWith_nonempty s suffix :
  endsWith s suffix = true → (String.length suffix ≤ String.length s)%nat.
Proof.
  induction s as [|c s IH]; cbn [endsWith];
    intros [Heq%bool_decide_eq_true|H]%orb_true_iff; subst; try done.
  apply IH in H. simpl. lia.
Qed.

(** X1: the path segment of a type always ends in [s], and is one or two
    characters longer than the name of the type. *)
Theorem getPlural_ends_in_s singular :
  endsWith (getPlural singular) "s" = true ∧
  (String.length singular < String.length (getPlural singular))%nat ∧
  (String.length (getPlural singular) ≤ String.length singular + 2)%nat.
Proof.
  unfold getPlural. destruct (endsWith singular "y") eqn:Hy.
  - apply endsWith_nonempty in Hy. simpl in Hy.
    rewrite length_string_app, length_slice_0_minus1. simpl.
    split; [by apply endsWith_app|lia].
  - destruct (_ || _); rewrite length_string_app; simpl;
      (split; [by apply endsWith_app|lia]).
Qed.

(** ** More on the write queue *)

(** X2: between two steps no queue holds a task and no drain loop is
    scheduled, in every state the server reaches: each task is taken off
    its queue by the very call of [saveData] that pushed it, so the branch
    of [processWriteQueue] that schedules the next task is never taken. *)
Theorem queue_never_holds_a_task validators readonlyProperties views s type :
  reachable validators readonlyProperties views s →
  queue s type = [] ∧ immediates s = [].
Proof. intros [Hq Hi]%reachable_drained. by split. Qed.

Lemma queue_never_holds_a_task_witness :
  queue (Game.run Game.started [Game.post_half_life; Game.post_portal]) "game"
    = []
  ∧ immediates (Game.run Game.started [Game.post_half_life; Game.post_portal])
    = [].
Proof.
  apply (queue_never_holds_a_task Schema.validators Schema.readonlyProperties
           Game.blank_files).
  by exists [Game.post_half_life; Game.post_portal].
Defined.

Lemma resume_responses_files k s data type :
  responses (resume k (set_file type data s)) = responses (resume k s).
Proof.
  destruct k; simpl; try done.
  destruct (phase_of s); try done. by destruct (filter _ _).
Qed.

Lemma resume_responses_forget k s type :
  responses (resume k (forget_file type s)) = responses (resume k s).
Proof.
  destruct k; simpl; try done.
  destruct (phase_of s); try done. by destruct (filter _ _).
Qed.

(** X3: when the file write of a task fails, the cache keeps its records
    and the request is answered as if the write had succeeded: the failure
    is logged by the task and reaches no client. *)
Theorem failed_write_is_not_reported i w s :
  inflight s !! i = Some w →
  cache (settle i false s) = cache s ∧
  responses (settle i false s) = responses (settle i true s) ∧
  inflight (settle i false s) = delete i (inflight s).
Proof.
  intros Hw. rewrite !settle_cache. unfold settle. rewrite Hw.
  unfold processWriteQueue_next.
  rewrite !resume_queue.
  cbn [queue writeQueues set_file forget_file set_inflight].
  destruct (0 <? _)%nat; simpl;
    rewrite ?resume_inflight, ?resume_responses_files,
      ?resume_responses_forget; done.
Qed.

Lemma failed_write_is_not_reported_witness :
  let s := Game.step Game.started Game.post_half_life in
  inflight (settle 0 false s) = [] ∧
  responses (settle 0 false s)
  = [(1, Response 201
           (PItem "game" (Some (Game.stored "t1" Game.half_life))))].
Proof.
  intros s.
  destruct (failed_write_is_not_reported 0
              (Write (Task "game"
                        (KPost 1 "game" (Game.stored "t1" Game.half_life)))
                 (snapshot s "game")) s) as (_ & Hr & Hi).
  - vm_compute. reflexivity.
  - split; [rewrite Hi|rewrite Hr]; vm_compute; reflexivity.
Defined.

(** X4: when no other file write is pending, a request that is accepted
    and whose own write then succeeds leaves the file with exactly the
    text of the cached collection, and no write pending. *)
Theorem file_agrees_with_cache_after_write validators readonlyProperties
    views s rid now r items k :
  reachable validators readonlyProperties views s →
  phase_of s = Listening →
  inflight s = [] →
  handler validators readonlyProperties rid now r
    (collection s (request_type r)) = Some (Saved items k) →
  let s' := run validators readonlyProperties s
              [EvRequest rid now r; EvSettle 0 true] in
  collection s' (request_type r) = items ∧
  files s' !! request_type r
  = Some (JSON_stringify (JArr (JObj <$> collection s' (request_type r)))) ∧
  inflight s' = [].
Proof.
  intros Hreach Hphase Hin Hh s'.
  apply reachable_drained in Hreach as Hd.
  assert (step validators readonlyProperties s (EvRequest rid now r)
          = saveData (request_type r) k (set_cache (request_type r) items s))
    as Hs1.
  { unfold step, handle. by rewrite Hphase, Hh. }
  assert (s' = settle 0 true
                 (saveData (request_type r) k
                    (set_cache (request_type r) items s))) as ->.
  { unfold s'. simpl. rewrite Hs1. unfold step.
    rewrite saveData_phase. simpl. by rewrite Hphase. }
  assert (collection (set_cache (request_type r) items s) (request_type r)
          = items) as Hc.
  { rewrite collection_set_cache. by rewrite decide_True. }
  pose proof (persist_writes_snapshot (request_type r) k
                (set_cache (request_type r) items s)) as Hw.
  simpl in Hw. rewrite Hin in Hw. simpl in Hw.
  split_and!.
  - unfold collection. rewrite settle_cache, saveData_cache. exact Hc.
  - rewrite Hw by apply Hd. unfold snapshot. f_equal. f_equal. f_equal.
    f_equal. unfold collection at 2. by rewrite settle_cache, saveData_cache.
  - rewrite saveData_idle by apply Hd. unfold settle; simpl. rewrite Hin.
    simpl. unfold processWriteQueue_next.
    destruct (0 <? _)%nat; simpl; by rewrite resume_inflight.
Qed.

Lemma file_agrees_with_cache_after_write_witness :
  let s' := Game.run Game.started [Game.post_half_life; EvSettle 0 true] in
  files s' !! "game"
  = Some (JSON_stringify (JArr (JObj <$> collection s' "game"))) ∧
  inflight s' = [].
Proof.
  intros s'.
  destruct (file_agrees_with_cache_after_write Schema.validators
              Schema.readonlyProperties Game.blank_files Game.started
              1 "t1" (Post "game" (BObj Game.half_life))
              [Game.stored "t1" Game.half_life]
              (KPost 1 "game" (Game.stored "t1" Game.half_life)))
    as (_ & Hf & Hi).
  - by exists [].
  - reflexivity.
  - reflexivity.
  - vm_compute. reflexivity.
  - split; [exact Hf|exact Hi].
Defined.

(** ** More on the loader *)

Lemma invalidItems_nil_or_refused issues i items :
  invalidItems issues i items = Ok []
  ∨ Exists (λ item, object_validator issues item ≠ Valid) items.
Proof.
  revert i. induction items as [|item items IH]; intros i; simpl; [by left|].
  destruct (object_validator issues item) eqn:Hv.
  - destruct (IH (S i)) as [?|?]; [by left|right]. by apply Exists_cons_tl.
  - right. apply Exists_cons_hd. by rewrite Hv.
Qed.

Lemma loadData_throw_refused type issues view s message :
  loadData type issues view s = Throw message → refused issues view.
Proof.
  destruct view as [| |msg|loadedData|msg]; simpl; try done.
  destruct loadedData as [| | | |items|]; try done.
  destruct (invalidItems_nil_or_refused issues 0 items) as [Hok|?]; [|done].
  simpl. by rewrite Hok.
Qed.

Lemma load_all_throw_refused views types s message :
  load_all views types s = Throw message →
  ∃ type issues, (type, issues) ∈ types ∧ refused issues (views type).
Proof.
  revert s. induction types as [|[type issues] types IH]; intros s; simpl;
    [done|].
  destruct (loadData type issues (views type) s) as [s1|msg] eqn:Hl; simpl.
  - intros (type'&issues'&Hin&Href)%IH. exists type', issues'.
    split; [|done]. apply elem_of_cons. by right.
  - intros _. exists type, issues. split; [apply elem_of_cons; by left|].
    by eapply loadData_throw_refused.
Qed.

Lemma loadData_starting type issues view s s' loading :
  phase_of s = Starting loading →
  loadData type issues view s = Ok s' →
  ∃ loading', phase_of s' = Starting loading'.
Proof.
  intros Hp. destruct view; simpl; try done.
  - intros [= <-]. rewrite saveData_phase. unfold start_loading. simpl.
    rewrite Hp. simpl. eauto.
  - intros [= <-]. simpl. eauto.
  - destruct (parse_and_validate _ _ _); [|done]. intros [= <-]. simpl. eauto.
Qed.

Lemma load_all_starting views types s s' loading :
  phase_of s = Starting loading →
  load_all views types s = Ok s' →
  ∃ loading', phase_of s' = Starting loading'.
Proof.
  revert s loading. induction types as [|[type issues] types IH];
    intros s loading Hp; simpl.
  - intros [= <-]. eauto.
  - destruct (loadData _ _ _ _) as [s1|] eqn:Hl; simpl; [|done].
    destruct (loadData_starting _ _ _ _ _ _ Hp Hl) as [loading1 Hp1].
    by eapply IH.
Qed.

(** X5: the startup ends in its [catch], which prints the message and
    exits, exactly when the file of some type is refused, that is, when
    the directory or the file cannot be read, or the file does not parse,
    does not hold an array, or holds an element that fails the validator
    of the type; a missing or a blank file never makes it exit. *)
Theorem startup_exits_iff_refused validators views :
  (∃ message, phase_of (boot validators views) = Exited message)
  ↔ ∃ type issues, (type, issues) ∈ validators
                   ∧ refused issues (views type).
Proof.
  split.
  - intros [message Hexit]. unfold boot in Hexit.
    destruct (load_all views validators (init validators)) as [s|msg] eqn:Hl.
    + exfalso.
      destruct (load_all_starting views validators (init validators) s []
                  eq_refl Hl) as [loading Hp].
      destruct (phase_of s) as [[|]| |] eqn:Hps; simpl in Hexit; congruence.
    + by eapply load_all_throw_refused.
  - intros (type&issues&Hin&Href).
    by eapply startup_exits_on_refused_file.
Qed.

(** X6: when the file of [game] is missing, the loader caches an empty
    collection and starts the write of an empty array; the server handles
    no request until that write settles, and then listens, whether the
    write succeeded or not. *)
Theorem missing_file_is_created views :
  views "game" = Missing →
  let s := boot Schema.validators views in
  phase_of s = Starting ["game"] ∧
  collection s "game" = [] ∧
  inflight s = [Write (Task "game" (KLoad "game")) "[]"] ∧
  (∀ rid now r, Game.step s (EvRequest rid now r) = s) ∧
  (∀ ok, phase_of (Game.step s (EvSettle 0 ok)) = Listening) ∧
  files (Game.step s (EvSettle 0 true)) !! "game" = Some "[]" ∧
  files (Game.step s (EvSettle 0 false)) !! "game" = None.
Proof.
  intros Hview s.
  assert (s = boot Schema.validators (λ _, Missing)) as ->.
  { unfold s, boot. simpl. by rewrite Hview. }
  split_and!;
    first [ vm_compute; reflexivity
          | intros [|]; vm_compute; reflexivity
          | intros; reflexivity ].
Qed.

Lemma missing_file_is_created_witness :
  phase_of (boot Schema.validators (λ _, Missing)) = Starting ["game"] ∧
  phase_of (Game.step (boot Schema.validators (λ _, Missing))
              (EvSettle 0 false)) = Listening.
Proof.
  destruct (missing_file_is_created (λ _, Missing) eq_refl)
    as (Hp & _ & _ & _ & Hl & _).
  split; [exact Hp|apply Hl].
Defined.

(** X8: the validation loop of the loader throws exactly when the array
    has a [null] element, whatever the validator of the type: [null]
    fails every object schema, and its id cannot be read. *)
Theorem validation_loop_throws_iff_null issues i items :
  (∃ message, invalidItems issues i items = Throw message) ↔ JNull ∈ items.
Proof.
  revert i. induction items as [|item items IH]; intros i; simpl.
  - split; [by intros [? ?]|by intros ?%elem_of_nil].
  - rewrite elem_of_cons, <- (IH (S i)).
    destruct item as [| | | | |o]; simpl; try destruct (issues o); simpl;
      destruct (invalidItems issues (S i) items) as [more|m]; simpl;
      (split;
       [ intros [m' Hm]; try discriminate Hm; first [by left|right; by eauto]
       | intros [Heq|[m' Hm]]; try discriminate Heq; try discriminate Hm;
         by eauto ]).
Qed.

Lemma invalidItems_sound issues i items invalid :
  invalidItems issues i items = Ok invalid →
  ∀ entry, entry ∈ invalid →
    ∃ j item, index entry = i + j ∧ items !! j = Some item
              ∧ object_validator issues item = Invalid (errors entry)
              ∧ item_id item = Ok (id entry).
Proof.
  revert i invalid. induction items as [|item items IH];
    intros i invalid Hinv entry Hin; simpl in Hinv.
  - injection Hinv as <-. by apply elem_of_nil in Hin.
  - destruct (object_validator issues item) as [|errs] eqn:Hv.
    + destruct (IH _ _ Hinv entry Hin) as (j&item'&Hj&Hitem&Hbad&Hid).
      exists (S j), item'. split_and!; [lia|done..].
    + destruct (item_id item) as [id0|] eqn:Hid0; simpl in Hinv; [|done].
      destruct (invalidItems issues (S i) items) as [more|] eqn:Hmore;
        simpl in Hinv; [|done].
      injection Hinv as <-. apply elem_of_cons in Hin as [->|Hin].
      * exists 0, item. simpl. split_and!; [lia|done..].
      * destruct (IH _ _ Hmore entry Hin) as (j&item'&Hj&Hitem&Hbad&Hid).
        exists (S j), item'. split_and!; [lia|done..].
Qed.

(** X9: when the validation loop of the loader ends, its list has an entry
    with the index and the errors of an element exactly when that element
    of the array fails the validator with these errors: no failing element
    is skipped and no passing element is listed. *)
Theorem invalid_items_exact issues items invalid j errors :
  invalidItems issues 0 items = Ok invalid →
  (∃ id, InvalidItem j id errors ∈ invalid)
  ↔ ∃ item, items !! j = Some item
            ∧ object_validator issues item = Invalid errors.
Proof.
  intros Hinv. split.
  - intros [id0 Hin].
    destruct (invalidItems_sound _ _ _ _ Hinv _ Hin)
      as (j'&item&Hj&Hitem&Hbad&_).
    simpl in Hj, Hbad. subst j'. by exists item.
  - intros (item&Hitem&Hbad).
    by apply (invalidItems_complete _ _ _ _ Hinv j item errors).
Qed.

Lemma invalid_items_exact_witness :
  (∃ id, InvalidItem 2 id [VError "" "Expected object, received number"]
         ∈ [InvalidItem 0 "4" (object_issues GameSchema Game.broken);
            InvalidItem 2 "sconosciuto"
              [VError "" "Expected object, received number"]])
  ↔ ∃ item, [JObj Game.broken; JObj Game.portal; JNum 3] !! 2 = Some item
            ∧ object_validator (object_issues GameSchema) item
              = Invalid [VError "" "Expected object, received number"].
Proof.
  apply (invalid_items_exact (object_issues GameSchema)
           [JObj Game.broken; JObj Game.portal; JNum 3]).
  vm_compute. reflexivity.
Defined.

(** The messages of the errors of a field, in the order of the errors. *)
Lemma group_step_spec f errors g0 g :
  foldl (λ acc error,
           fieldErrors ← acc;
           if bool_decide (field error ∈ object_prototype_keys)
           then Throw "fieldErrors[error.field].push is not a function"
           else
             Ok (obj_set (field error)
                   (default [] (obj_get (field error) fieldErrors)
                    ++ [message error])
                   fieldErrors))
    (Ok g0) errors = Ok g →
  obj_get f g =
  match filter (λ error, field error = f) errors with
  | [] => obj_get f g0
  | es => Some (default [] (obj_get f g0) ++ (message <$> es))
  end.
Proof.
  revert g0. induction errors as [|e errors IH]; intros g0; simpl.
  - by intros [= <-].
  - case_bool_decide as Hproto.
    + intros Hthrow. exfalso. revert Hthrow. clear.
      induction errors as [|e' errors IH]; simpl; [done|exact IH].
    + intros Hfold. apply IH in Hfold. rewrite Hfold.
      rewrite filter_cons, obj_get_set.
      destruct (decide (field e = f)) as [<-|Hne].
      * rewrite decide_True by done. simpl.
        destruct (filter _ errors) as [|e' es]; simpl; [done|].
        by rewrite <- app_assoc.
      * rewrite decide_False by done. done.
Qed.

(** X10: when [formatValidationErrors] has grouped the errors, a field has
    a group exactly when some error names it, and the group holds the
    messages of all the errors of that field, in their order. *)
Theorem errors_grouped_by_field errors fieldErrors f :
  group_errors errors = Ok fieldErrors →
  obj_get f fieldErrors =
  match filter (λ error, field error = f) errors with
  | [] => None
  | es => Some (message <$> es)
  end.
Proof.
  intros Hg. unfold group_errors in Hg.
  rewrite (group_step_spec f errors [] fieldErrors Hg). simpl.
  by destruct (filter _ errors).
Qed.

Lemma errors_grouped_by_field_witness :
  obj_get "tags" [("title", ["a"; "c"]); ("tags", ["b"])] = Some ["b"].
Proof.
  apply (errors_grouped_by_field
           [VError "title" "a"; VError "tags" "b"; VError "title" "c"]
           [("title", ["a"; "c"]); ("tags", ["b"])] "tags").
  vm_compute. reflexivity.
Defined.

(** ** More on the handlers *)

Lemma strict_eq_true a b : strict_eq a b = true → a = b.
Proof.
  destruct a as [[]|], b as [[]|]; simpl; try done;
    by intros ->%bool_decide_eq_true.
Qed.

Lemma handle_phase validators readonlyProperties rid now r s :
  phase_of (handle validators readonlyProperties rid now r s) = phase_of s.
Proof.
  unfold handle. destruct (handler _ _ _ _ _ _) as [[resp|items k]|]; try done.
  by rewrite saveData_phase.
Qed.

Lemma step_request_listening validators readonlyProperties s rid now r :
  phase_of s = Listening →
  step validators readonlyProperties s (EvRequest rid now r)
  = handle validators readonlyProperties rid now r s.
Proof. intros Hp. unfold step. by rewrite Hp. Qed.

(** A valid body whose slug a record of the collection has is answered
    409. *)
Lemma post_conflict type issues rid now o items :
  issues o = [] →
  truthy (obj_get "slug" o) = true →
  Exists (has_slug (obj_get "slug" o)) items →
  post type issues rid now (BObj o) items
  = Reply (Response 409 (PError "Slug già esistente")).
Proof.
  intros Hvalid Hslug Htaken. unfold post. simpl. rewrite Hvalid.
  rewrite obj_get_delete. simpl. rewrite Hslug. simpl.
  by rewrite bool_decide_eq_true_2.
Qed.

(** X11: once a create is accepted, a second create of a valid body with
    the same slug is answered 409 and changes nothing, also while the file
    write of the first is still pending. *)
Theorem second_create_conflicts validators readonlyProperties s type issues
    rid now o rid' now' o' :
  phase_of s = Listening →
  obj_get type validators = Some issues →
  issues o = [] →
  issues o' = [] →
  truthy (obj_get "slug" o) = true →
  ¬ Exists (has_slug (obj_get "slug" o)) (collection s type) →
  strict_eq (obj_get "slug" o') (obj_get "slug" o) = true →
  let s1 := step validators readonlyProperties s
              (EvRequest rid now (Post type (BObj o))) in
  step validators readonlyProperties s1
    (EvRequest rid' now' (Post type (BObj o')))
  = respond rid' (Response 409 (PError "Slug già esistente")) s1.
Proof.
  intros Hphase Hv Hvalid Hvalid' Hslug Hfree Hsame s1.
  pose proof (strict_eq_true _ _ Hsame) as Heq. rewrite Heq in Hsame.
  assert (phase_of s1 = Listening) as Hphase1.
  { unfold s1. by rewrite step_request_listening, handle_phase. }
  assert (collection s1 type
          = collection s type
            ++ [obj_set "updatedAt" (JStr now)
                  (obj_set "createdAt" (JStr now) (obj_delete "id" o))])
    as Hc.
  { unfold s1. rewrite step_collection, Hphase. cbn [request_type].
    unfold handler. cbn [request_type]. rewrite Hv.
    rewrite (post_accepts type issues rid now o) by done.
    by rewrite decide_True. }
  rewrite step_request_listening by done.
  unfold handle, handler. cbn [request_type]. rewrite Hv.
  rewrite post_conflict; [done..| |].
  - by rewrite Heq.
  - rewrite Hc, Heq. apply Exists_app. right. apply Exists_cons_hd.
    unfold has_slug.
    by rewrite obj_get_set, decide_False, obj_get_set, decide_False,
      obj_get_delete, decide_False.
Qed.

Lemma second_create_conflicts_witness :
  let s1 := Game.step Game.started Game.post_half_life in
  Game.step s1 (EvRequest 2 "t2" (Post "game" (BObj Game.half_life)))
  = respond 2 (Response 409 (PError "Slug già esistente")) s1.
Proof.
  apply (second_create_conflicts Schema.validators Schema.readonlyProperties
           Game.started "game" (object_issues GameSchema) 1 "t1"
           Game.half_life 2 "t2" Game.half_life).
  - reflexivity.
  - reflexivity.
  - vm_compute. reflexivity.
  - vm_compute. reflexivity.
  - reflexivity.
  - vm_compute. intros H. inversion H.
  - vm_compute. reflexivity.
Defined.

(** A record that passes [validateGame] has a string as slug. *)
Lemma game_valid_slug o :
  object_issues GameSchema o = [] → ∃ sl, obj_get "slug" o = Some (JStr sl).
Proof.
  intros [Hfields _]%object_issues_nil.
  assert (check_value (FSpec "slug" TString false None) (obj_get "slug" o)
          = []) as Hslug.
  { apply (proj1 (Forall_forall _ _) Hfields). set_solver. }
  destruct (obj_get "slug" o) as [[| | |sl| |]|]; try done. by exists sl.
Qed.

(** X12: a body that passes [validateGame] is refused by the create with
    400 and "Slug obbligatorio" exactly when its slug is the empty string:
    the schema takes any string as slug, the handler none that is
    falsy. *)
Theorem empty_slug_is_refused rid now o items :
  object_issues GameSchema o = [] →
  post "game" (object_issues GameSchema) rid now (BObj o) items
  = Reply (Response 400 (PError "Slug obbligatorio"))
  ↔ obj_get "slug" o = Some (JStr "").
Proof.
  intros Hvalid. destruct (game_valid_slug o Hvalid) as [sl Hsl].
  unfold post. simpl. rewrite Hvalid, obj_get_delete. simpl. rewrite Hsl.
  simpl. case_bool_decide as Hempty; simpl.
  - subst. done.
  - case_bool_decide; split; try done; intros [= ?]; done.
Qed.

Lemma empty_slug_is_refused_witness :
  post "game" (object_issues GameSchema) 1 "t1"
    (BObj (obj_set "slug" (JStr "") Game.portal)) []
  = Reply (Response 400 (PError "Slug obbligatorio"))
  ↔ obj_get "slug" (obj_set "slug" (JStr "") Game.portal) = Some (JStr "").
Proof.
  apply (empty_slug_is_refused 1 "t1"
           (obj_set "slug" (JStr "") Game.portal) []).
  vm_compute. reflexivity.
Defined.

(** X13: a create whose body is an array is refused with 400 and the
    errors of the validator, for every type and every array, and changes
    nothing. *)
Theorem array_body_is_refused validators readonlyProperties s type issues
    rid now l :
  phase_of s = Listening →
  obj_get type validators = Some issues →
  ∃ errors,
    step validators readonlyProperties s (EvRequest rid now (Post type (BArr l)))
    = respond rid
        (Response 400 (PInvalid ("Invalid " +:+ type +:+ " data") errors)) s
    ∧ errors ≠ [].
Proof.
  intros Hphase Hv. rewrite step_request_listening by done.
  unfold handle, handler. cbn [request_type]. rewrite Hv.
  unfold post. simpl. eexists. split; [reflexivity|done].
Qed.

Lemma array_body_is_refused_witness :
  ∃ errors,
    Game.step Game.started (EvRequest 1 "t1" (Post "game" (BArr [JNum 1])))
    = respond 1 (Response 400 (PInvalid "Invalid game data" errors))
        Game.started.
Proof.
  destruct (array_body_is_refused Schema.validators Schema.readonlyProperties
              Game.started "game" (object_issues GameSchema) 1 "t1" [JNum 1])
    as (errors & Hstep & _).
  - reflexivity.
  - reflexivity.
  - exists errors. exact Hstep.
Defined.

(** A delete of an id that no record has is answered 404. *)
Lemma del_absent type rid itemId items :
  Forall (λ p, ¬ id_is itemId p) items →
  del type rid itemId items =
  Reply (Response 404
           (PNotFound (type +:+ " with id '"
                       +:+ from_option pretty "NaN" itemId
                       +:+ "' not found."))).
Proof.
  intros Habsent. unfold del.
  assert (filter (λ p, ¬ id_is itemId p) items = items) as ->.
  { induction Habsent as [|p items Hp _ IH]; [done|].
    by rewrite filter_cons, IH, decide_True. }
  by rewrite Nat.eqb_refl.
Qed.

(** A delete of an id that a record has is accepted. *)
Lemma del_present type rid itemId items :
  Exists (id_is itemId) items →
  del type rid itemId items
  = Saved (filter (λ p, ¬ id_is itemId p) items) (KDelete rid).
Proof.
  intros (p&Hin&Hp)%Exists_exists. unfold del.
  assert (length (filter (λ p, ¬ id_is itemId p) items) < length items)
    as Hlt.
  { apply (length_filter_lt _ _ p); [done|]. by intros Hn. }
  destruct (_ =? _)%nat eqn:Heq; [|done].
  apply Nat.eqb_eq in Heq. lia.
Qed.

(** X14: a delete by an id that records of the collection have removes all
    the records with that id and keeps the others in their order; a second
    delete by the same id is then answered 404 and changes nothing. *)
Theorem delete_then_delete_not_found validators readonlyProperties s type
    issues rid now itemId rid' now' :
  phase_of s = Listening →
  obj_get type validators = Some issues →
  Exists (id_is itemId) (collection s type) →
  let s1 := step validators readonlyProperties s
              (EvRequest rid now (Delete type itemId)) in
  collection s1 type = filter (λ p, ¬ id_is itemId p) (collection s type) ∧
  Forall (λ p, ¬ id_is itemId p) (collection s1 type) ∧
  step validators readonlyProperties s1
    (EvRequest rid' now' (Delete type itemId))
  = respond rid'
      (Response 404
         (PNotFound (type +:+ " with id '"
                     +:+ from_option pretty "NaN" itemId
                     +:+ "' not found."))) s1.
Proof.
  intros Hphase Hv Hpresent s1.
  assert (phase_of s1 = Listening) as Hphase1.
  { unfold s1. by rewrite step_request_listening, handle_phase. }
  assert (collection s1 type
          = filter (λ p, ¬ id_is itemId p) (collection s type)) as Hc.
  { unfold s1. rewrite step_collection, Hphase. cbn [request_type].
    unfold handler. cbn [request_type]. rewrite Hv.
    rewrite del_present by done. by rewrite decide_True. }
  assert (Forall (λ p, ¬ id_is itemId p) (collection s1 type)) as Hgone.
  { rewrite Hc. apply Forall_forall. by intros p [Hp _]%list_elem_of_filter. }
  split_and!; [done..|].
  rewrite step_request_listening by done.
  unfold handle, handler. cbn [request_type]. rewrite Hv.
  by rewrite del_absent.
Qed.

Lemma delete_then_delete_not_found_witness :
  let s := boot Schema.validators Game.two_games_files in
  let s1 := Game.step s (EvRequest 1 "t1" (Delete "game" (Some 7%Z))) in
  collection s1 "game" = [Game.portal] ∧
  Game.step s1 (EvRequest 2 "t2" (Delete "game" (Some 7%Z)))
  = respond 2 (Response 404 (PNotFound "game with id '7' not found.")) s1.
Proof.
  intros s s1.
  destruct (delete_then_delete_not_found Schema.validators
              Schema.readonlyProperties s "game" (object_issues GameSchema)
              1 "t1" (Some 7%Z) 2 "t2") as (Hc & _ & Hstep).
  - reflexivity.
  - reflexivity.
  - apply Exists_cons_hd. vm_compute. reflexivity.
  - split; [|exact Hstep].
    etransitivity; [exact Hc|]. vm_compute. reflexivity.
Defined.

(** X15: a delete whose id does not read as a number ([NaN]) is answered
    404 and removes nothing, whatever the collection holds. *)
Theorem delete_nan_not_found validators readonlyProperties s type issues
    rid now :
  phase_of s = Listening →
  obj_get type validators = Some issues →
  step validators readonlyProperties s (EvRequest rid now (Delete type None))
  = respond rid
      (Response 404 (PNotFound (type +:+ " with id 'NaN' not found."))) s.
Proof.
  intros Hphase Hv. rewrite step_request_listening by done.
  unfold handle, handler. cbn [request_type]. rewrite Hv.
  rewrite del_absent; [done|].
  apply Forall_forall. intros p _. unfold id_is.
  destruct (obj_get "id" p) as [[]|]; tauto.
Qed.

Lemma delete_nan_not_found_witness :
  Game.step (boot Schema.validators Game.two_games_files)
    (EvRequest 1 "t1" (Delete "game" None))
  = respond 1 (Response 404 (PNotFound "game with id 'NaN' not found."))
      (boot Schema.validators Game.two_games_files).
Proof.
  apply (delete_nan_not_found Schema.validators Schema.readonlyProperties
           (boot Schema.validators Game.two_games_files) "game"
           (object_issues GameSchema) 1 "t1"); reflexivity.
Defined.

(** X16: an update by a slug that no record of the collection has is
    answered 404 and changes nothing, whatever the body: the lookup comes
    before the read-only check and before the validation. *)
Theorem update_unknown_slug_not_found validators readonlyProperties s type
    issues rid now itemSlug b :
  phase_of s = Listening →
  obj_get type validators = Some issues →
  Forall (λ p, ¬ has_slug (Some (JStr itemSlug)) p) (collection s type) →
  step validators readonlyProperties s
    (EvRequest rid now (Put type itemSlug b))
  = respond rid (not_found type itemSlug) s.
Proof.
  intros Hphase Hv Habsent. rewrite step_request_listening by done.
  unfold handle, handler. cbn [request_type]. rewrite Hv.
  unfold put. by rewrite (proj2 (list_find_None _ _) Habsent).
Qed.

Lemma update_unknown_slug_not_found_witness :
  Game.step Game.started
    (EvRequest 1 "t1" (Put "game" "portal" (BArr [JNull])))
  = respond 1 (Response 404 (PNotFound "game con slug 'portal' non trovato."))
      Game.started.
Proof.
  apply (update_unknown_slug_not_found Schema.validators
           Schema.readonlyProperties Game.started "game"
           (object_issues GameSchema) 1 "t1" "portal" (BArr [JNull])).
  - reflexivity.
  - reflexivity.
  - vm_compute. constructor.
Defined.

Lemma updatedFields_nil b :
  (∀ key, key ∈ obj_keys (body_props b) →
          key ∈ ["slug"; "id"; "createdAt"; "updatedAt"]) →
  updatedFields b = [].
Proof.
  intros Honly. destruct (updatedFields b) as [|[key v] rest] eqn:Hu; [done|].
  exfalso.
  assert (obj_get key (updatedFields b) = Some v) as Hget.
  { rewrite Hu. simpl. by rewrite decide_True. }
  rewrite obj_get_updatedFields in Hget.
  case_bool_decide as Hserver; [done|].
  apply Hserver, Honly, obj_get_keys. by rewrite Hget.
Qed.

(** X17: an update whose body names no field but slug, id, createdAt or
    updatedAt (an empty body, say) is accepted without any validation,
    whatever the validator and the read-only table, and changes nothing in
    the record but updatedAt. *)
Theorem update_without_fields_touches type issues typeReadonlyProps rid now
    itemSlug b items itemIndex oldItem :
  list_find (has_slug (Some (JStr itemSlug))) items
    = Some (itemIndex, oldItem) →
  (∀ key, key ∈ obj_keys (body_props b) →
          key ∈ ["slug"; "id"; "createdAt"; "updatedAt"]) →
  put type issues typeReadonlyProps rid now itemSlug b items
  = Saved (<[itemIndex := updated oldItem b now]> items)
      (KPut rid type itemIndex) ∧
  obj_get "updatedAt" (updated oldItem b now) = Some (JStr now) ∧
  ∀ key, key ≠ "updatedAt" →
         obj_get key (updated oldItem b now) = obj_get key oldItem.
Proof.
  intros Hfind Honly. pose proof (updatedFields_nil b Honly) as Hnil.
  split_and!.
  - unfold put. rewrite Hfind.
    unfold readonlyAttemptsToUpdate, fieldsToValidate. by rewrite Hnil.
  - by rewrite obj_get_updated, decide_True.
  - intros key Hkey. rewrite obj_get_updated, decide_False by done.
    by rewrite Hnil.
Qed.

Lemma update_without_fields_touches_witness :
  put "game" (λ _, [VError "" "never valid"]) ["title"] 2 "t2" "portal"
    (BObj [("id", JNum 9)]) [Game.portal]
  = Saved [updated Game.portal (BObj [("id", JNum 9)]) "t2"]
      (KPut 2 "game" 0)
  ∧ obj_get "id" (updated Game.portal (BObj [("id", JNum 9)]) "t2") = None.
Proof.
  destruct (update_without_fields_touches "game"
              (λ _, [VError "" "never valid"]) ["title"] 2 "t2" "portal"
              (BObj [("id", JNum 9)]) [Game.portal] 0 Game.portal)
    as (Hput & _ & Hkeep).
  - vm_compute. reflexivity.
  - intros key Hkey. apply elem_of_cons in Hkey as [->|Hkey];
      [|by apply elem_of_nil in Hkey].
    apply elem_of_cons. right. apply elem_of_cons. by left.
  - split; [exact Hput|]. rewrite Hkeep by done. reflexivity.
Defined.

(** ** Reading after writing *)

(** X18: after an accepted update by slug, a read by the same slug returns
    the updated record with status 200: the update keeps the position and
    the slug of the record, and the read looks the record up as the update
    did. *)
Theorem update_then_read validators readonlyProperties rid now type itemSlug
    b items items' k :
  handler validators readonlyProperties rid now (Put type itemSlug b) items
    = Some (Saved items' k) →
  ∃ itemIndex newItem,
    items' !! itemIndex = Some newItem ∧
    k = KPut rid type itemIndex ∧
    obj_get "updatedAt" newItem = Some (JStr now) ∧
    getBySlug type itemSlug items' = Response 200 (PItem type (Some newItem)).
Proof.
  unfold handler. cbn [request_type].
  destruct (obj_get type validators) as [issues|]; [|done].
  intros [= (i&old&Hfind&_&->&->)%put_saved].
  apply list_find_Some in Hfind as (Hi&Hslug&Hfirst).
  assert (has_slug (Some (JStr itemSlug)) (updated old b now)) as Hslug'.
  { unfold has_slug in *. rewrite obj_get_updated, obj_get_updatedFields.
    rewrite decide_False by done.
    by rewrite bool_decide_eq_true_2 by set_solver. }
  assert (list_find (has_slug (Some (JStr itemSlug)))
            (<[i := updated old b now]> items)
          = Some (i, updated old b now)) as Hfind'.
  { apply list_find_Some. split_and!; [|done|].
    - apply list_lookup_insert_eq. by eapply lookup_lt_Some.
    - intros j y Hj Hlt. rewrite list_lookup_insert_ne in Hj by lia.
      by eapply Hfirst. }
  exists i, (updated old b now). split_and!; [|done| |].
  - apply list_lookup_insert_eq. by eapply lookup_lt_Some.
  - by rewrite obj_get_updated, decide_True.
  - unfold getBySlug. by rewrite Hfind'.
Qed.

Lemma update_then_read_witness :
  ∃ newItem,
    getBySlug "game" "portal"
      [updated Game.portal (BObj [("price", JStr "1.99")]) "t2"]
    = Response 200 (PItem "game" (Some newItem)) ∧
    obj_get "updatedAt" newItem = Some (JStr "t2").
Proof.
  destruct (update_then_read Schema.validators Schema.readonlyProperties
              2 "t2" "game" "portal" (BObj [("price", JStr "1.99")])
              [Game.portal]
              [updated Game.portal (BObj [("price", JStr "1.99")]) "t2"]
              (KPut 2 "game" 0))
    as (i & newItem & _ & _ & Hupd & Hget).
  - vm_compute. reflexivity.
  - exists newItem. split; [exact Hget|exact Hupd].
Defined.

(** X19: as soon as a create is accepted, and while its file write is
    still pending, a read by the slug of the body returns the new record
    with status 200, and the list of the type ends with it. *)
Theorem create_then_read validators readonlyProperties views s type issues
    rid now o sl :
  reachable validators readonlyProperties views s →
  phase_of s = Listening →
  obj_get type validators = Some issues →
  issues o = [] →
  obj_get "slug" o = Some (JStr sl) →
  sl ≠ "" →
  ¬ Exists (has_slug (Some (JStr sl))) (collection s type) →
  let s1 := step validators readonlyProperties s
              (EvRequest rid now (Post type (BObj o))) in
  let newItem := obj_set "updatedAt" (JStr now)
                   (obj_set "createdAt" (JStr now) (obj_delete "id" o)) in
  getBySlug type sl (collection s1 type)
  = Response 200 (PItem type (Some newItem)) ∧
  getAll type (collection s1 type)
  = (getPlural type, collection s type ++ [newItem]) ∧
  length (inflight s1) = S (length (inflight s)) ∧
  responses s1 = responses s.
Proof.
  intros Hreach Hphase Hv Hvalid Hslug Hne Hfree s1 newItem.
  apply reachable_drained in Hreach as Hd.
  assert (truthy (obj_get "slug" o) = true) as Htruthy.
  { rewrite Hslug. simpl. by rewrite bool_decide_eq_false_2. }
  assert (s1 = saveData type (KPost rid type newItem)
                 (set_cache type (collection s type ++ [newItem]) s)) as Hs1.
  { unfold s1. rewrite step_request_listening by done.
    unfold handle, handler. cbn [request_type]. rewrite Hv.
    rewrite (post_accepts type issues rid now o); [done..|].
    by rewrite Hslug. }
  assert (collection s1 type = collection s type ++ [newItem]) as Hc.
  { rewrite Hs1. unfold collection. rewrite saveData_cache. simpl.
    by rewrite lookup_insert_eq. }
  assert (has_slug (Some (JStr sl)) newItem) as Hnew.
  { unfold has_slug, newItem.
    rewrite obj_get_set, decide_False, obj_get_set, decide_False,
      obj_get_delete, decide_False, Hslug by done.
    simpl. by rewrite bool_decide_eq_true_2. }
  split_and!.
  - unfold getBySlug. rewrite Hc.
    assert (list_find (has_slug (Some (JStr sl)))
              (collection s type ++ [newItem])
            = Some (length (collection s type), newItem)) as ->; [|done].
    apply list_find_Some. split_and!; [|done|].
    + by rewrite lookup_app_r, Nat.sub_diag.
    + intros j y Hj Hlt Hy. rewrite lookup_app_l in Hj by done.
      apply Hfree, Exists_exists. exists y. split; [|done].
      by eapply list_elem_of_lookup_2.
  - unfold getAll. by rewrite Hc.
  - rewrite Hs1, saveData_idle by apply set_cache_drained, Hd. simpl.
    rewrite length_app. simpl. lia.
  - by rewrite Hs1, saveData_responses.
Qed.

Lemma create_then_read_witness :
  getBySlug "game" "half-life-2"
    (collection (Game.step Game.started Game.post_half_life) "game")
  = Response 200 (PItem "game" (Some (Game.stored "t1" Game.half_life))).
Proof.
  destruct (create_then_read Schema.validators Schema.readonlyProperties
              Game.blank_files Game.started "game" (object_issues GameSchema)
              1 "t1" Game.half_life "half-life-2") as (Hget & _).
  - by exists [].
  - reflexivity.
  - reflexivity.
  - vm_compute. reflexivity.
  - reflexivity.
  - discriminate.
  - vm_compute. intros H. inversion H.
  - exact Hget.
Defined.

(** ** Invariants of the cache *)

(** X20: in every state the server of [schema.js] reaches while no update
    carries a property named [__proto__], every record of the cache passes
    [validateGame]: the loader, the create and such updates let no other
    record in. *)
Theorem cached_records_pass_validator readonlyProperties views s :
  reachable_no_proto Schema.validators readonlyProperties views s →
  Forall (λ p, validateGame (JObj p) = Valid) (collection s "game").
Proof.
  intros Hvalid%reachable_game_valid. unfold game_valid in Hvalid.
  eapply Forall_impl; [exact Hvalid|]. intros p Hp. simpl in Hp.
  apply object_validator_valid. by exists p.
Qed.

Lemma cached_records_pass_validator_witness :
  Forall (λ p, validateGame (JObj p) = Valid)
    (collection
       (Game.run Game.started
          [Game.post_half_life;
           EvRequest 2 "t2" (Put "game" "half-life-2"
                               (BObj [("price", JStr "1.99")]))])
       "game").
Proof.
  apply (cached_records_pass_validator Schema.readonlyProperties
           Game.blank_files).
  eexists. split; [|reflexivity]. by repeat constructor.
Defined.

(** X21: handling a request never touches the files and changes no
    collection but that of the type of the request; the settling of a file
    write and a scheduled drain never change the cache. *)
Theorem requests_and_writes_keep_apart validators readonlyProperties s rid
    now r i ok :
  files (step validators readonlyProperties s (EvRequest rid now r)) = files s
  ∧ (∀ type, type ≠ request_type r →
       collection (step validators readonlyProperties s (EvRequest rid now r))
         type = collection s type)
  ∧ cache (step validators readonlyProperties s (EvSettle i ok)) = cache s
  ∧ cache (step validators readonlyProperties s EvImmediate) = cache s.
Proof.
  split_and!.
  - unfold step. destruct (phase_of s); try done.
    unfold handle. destruct (handler _ _ _ _ _ _) as [[resp|items k]|];
      try done. by rewrite saveData_files.
  - intros type Hne. rewrite step_collection.
    destruct (phase_of s); try done.
    destruct (handler _ _ _ _ _ _) as [[resp|items k]|]; try done.
    by rewrite decide_False.
  - rewrite step_cache. by destruct (phase_of s).
  - rewrite step_cache. by destruct (phase_of s).
Qed.

(** ** The schema of a game *)

(** X22: what passes [validateGame] is an object whose slug and title are
    strings, whose id, when it has one, is a number, and whose keys are
    all fields of the schema. *)
Theorem passing_record_shape data :
  validateGame data = Valid →
  ∃ o sl title,
    data = JObj o ∧
    obj_get "slug" o = Some (JStr sl) ∧
    obj_get "title" o = Some (JStr title) ∧
    (obj_get "id" o = None ∨ ∃ n, obj_get "id" o = Some (JNum n)) ∧
    Forall (λ key, key ∈ f_name <$> GameSchema) (obj_keys o).
Proof.
  intros (o&->&Hvalid)%object_validator_valid.
  destruct (game_valid_slug o Hvalid) as [sl Hsl].
  apply object_issues_nil in Hvalid as [Hfields Hkeys].
  pose proof (proj1 (Forall_forall _ _) Hfields) as Hfield.
  assert (check_value (FSpec "title" TString false (Some "Title is required"))
            (obj_get "title" o) = []) as Htitle.
  { apply Hfield. set_solver. }
  assert (check_value (FSpec "id" TNumber true None) (obj_get "id" o) = [])
    as Hid.
  { apply Hfield. set_solver. }
  destruct (obj_get "title" o) as [[| | |title| |]|] eqn:Ht; try done.
  exists o, sl, title. split_and!; try done.
  destruct (obj_get "id" o) as [[| |n| | |]|]; try done; [right|left]; eauto.
Qed.

Lemma passing_record_shape_witness :
  ∃ o sl title,
    JObj Game.half_life = JObj o ∧
    obj_get "slug" o = Some (JStr sl) ∧
    obj_get "title" o = Some (JStr title).
Proof.
  destruct (passing_record_shape (JObj Game.half_life))
    as (o & sl & title & Ho & Hsl & Ht & _).
  - vm_compute. reflexivity.
  - by exists o, sl, title.
Defined.
